(** * GameManager: the tick, round and connection logic of gamemanager.cpp

    A shallow embedding of [GameManager] (src/gamemanager.cpp): the roster
    [m_players], the tick timer, the round counter and the slots that
    change them, followed by the properties of the tick engine, the round
    manager, the broadcast and the connection lifecycle. *)

From stdpp Require Import base numbers list strings.
From Stdlib Require Import ZArith Lia.

Open Scope Z_scope.

(** ** Data *)

(** [QPoint]: a pair of C++ [int] coordinates.  The [int]s of the program
    (coordinates, ids, counters) are kept in [Z]: the only arithmetic on
    them is one step from a map cell or one increment of a counter, far
    from the limits of [int]. *)
Record QPoint := mkPoint { x : Z; y : Z }.

Definition setX (p : QPoint) (v : Z) : QPoint := mkPoint v (y p).
Definition setY (p : QPoint) (v : Z) : QPoint := mkPoint (x p) v.

(** [QPoint::operator==]. *)
Definition QPoint_eqb (p q : QPoint) : bool := (x p =? x q) && (y p =? y q).

(** [NetworkClient]: the channel object built around an accepted socket. *)
Record NetworkClient := mkClient { socket : nat; remoteName : string }.

(** Modelled from the spec: player.h is not among the sources.  A [Player]
    carries the state read and written through the accessors that
    gamemanager.cpp calls: id, name, position, alive flag, pending command,
    win counter and the optional network channel ([None] is the null
    pointer of a locally-controlled player).  [ptr] is the address of the
    object, the identity that [QList::indexOf] and the opponents list
    compare. *)
Record Player := mkPlayer {
  ptr : nat;
  id : Z;
  name : string;
  position : QPoint;
  isAlive : bool;
  command : string;
  wins : Z;
  networkClient : option NetworkClient
}.

Definition setId (v : Z) (p : Player) : Player :=
  mkPlayer (ptr p) v (name p) (position p) (isAlive p) (command p) (wins p) (networkClient p).
Definition setName (v : string) (p : Player) : Player :=
  mkPlayer (ptr p) (id p) v (position p) (isAlive p) (command p) (wins p) (networkClient p).
Definition setPosition (v : QPoint) (p : Player) : Player :=
  mkPlayer (ptr p) (id p) (name p) v (isAlive p) (command p) (wins p) (networkClient p).
Definition setAlive (v : bool) (p : Player) : Player :=
  mkPlayer (ptr p) (id p) (name p) (position p) v (command p) (wins p) (networkClient p).
Definition setCommand (v : string) (p : Player) : Player :=
  mkPlayer (ptr p) (id p) (name p) (position p) (isAlive p) v (wins p) (networkClient p).
Definition addWin (p : Player) : Player :=
  mkPlayer (ptr p) (id p) (name p) (position p) (isAlive p) (command p) (wins p + 1) (networkClient p).

(** Modelled from the spec: the constructor [Player(parent, id, client)] of
    the absent player.h.  It is given the id and the channel; the alive
    flag, the pending command and the win counter it starts with are in
    neither the sources nor the specification, and the values below only
    stand for them. *)
Definition newPlayer (a : nat) (i : Z) (client : option NetworkClient) : Player :=
  mkPlayer a i "" (mkPoint 0 0) true "" 0 client.

(** [networkClient() != 0]. *)
Definition attached (p : Player) : bool :=
  match networkClient p with Some _ => true | None => false end.

(** The map collaborator (map.h, bomb.h are not among the sources): the
    queries and commands gamemanager.cpp calls on it, as an interface. *)
Class MapModel (Map : Type) := {
  (** [new Map(this, path)]: the map parsed from storage *)
  Map_new : string → Map;
  isValid : Map → bool;
  map_name : Map → string;
  startingPositions : Map → list QPoint;
  isValidPosition : Map → QPoint → bool;
  (** the positions of [bombs()] *)
  bombs : Map → list QPoint;
  (** [addBomb(position, owner)], the owner given by its address *)
  addBomb : Map → QPoint → nat → Map
}.

(** What a slot sends out: Qt signals, channel writes and timer requests. *)
Inductive Signal :=
  | gameOver
  | sendEndOfRound (to : nat)
  | sendState (to : nat) (opponents : list nat)
  | singleShot_startRound
  | endScreen_opacity
  | socket_deleteLater (sock : nat)
  | nameChanged_disconnect (a : nat).

(** What stops a slot in the middle: a call through a null
    [networkClient()], or [QList::operator[]] past the end. *)
Inductive Fault := NullChannel (a : nat) | IndexOutOfRange (i : nat).

Inductive Outcome (A : Type) :=
  | Done (a : A)
  | Crash (f : Fault).
Arguments Done {A} a.
Arguments Crash {A} f.

#[global] Instance Outcome_ret : MRet Outcome := fun A a => Done a.
#[global] Instance Outcome_bind : MBind Outcome := fun A B k m =>
  match m with Done a => k a | Crash f => Crash f end.

(** ** Lists as QList *)

(** [qSwap(l[i], l[j])]. *)
Definition qSwap {A} (i j : nat) (l : list A) : list A :=
  match l !! i, l !! j with
  | Some a, Some b => <[j:=a]> (<[i:=b]> l)
  | _, _ => l
  end.

(** [QList::takeAt(i)]: the list without its [i]-th element. *)
Definition takeAt {A} (i : nat) (l : list A) : list A := delete i l.

(** Apply [f] to the object at index [i] ([l[i]->f()]). *)
Definition at_index {A} (i : nat) (f : A → A) (l : list A) : list A := alter f i l.

(** The Fisher–Yates loop of [gameTick]:
    [for (index = count-1; index > 0; --index)
       qSwap(players[index], players[qrand() % (index + 1)]);]
    [rng k] is the value of the [k]-th call of [qrand()] in the tick;
    [fisher_yates n k l] runs the iterations [index = n, n-1, .., 1],
    the first of them taking [rng k]. *)
Fixpoint fisher_yates {A} (rng : nat → nat) (index k : nat) (l : list A) : list A :=
  match index with
  | O => l
  | S i => fisher_yates rng i (S k) (qSwap index (rng k mod (index + 1))%nat l)
  end.

Definition shuffle {A} (rng : nat → nat) (l : list A) : list A :=
  fisher_yates rng (length l - 1)%nat 0%nat l.

(** [QList::indexOf(playerObject)]: the first index holding that address. *)
Fixpoint indexOf (a : nat) (l : list Player) : option nat :=
  match l with
  | [] => None
  | p :: rest => if (ptr p =? a)%nat then Some O else S <$> indexOf a rest
  end.

(** [for (i = 0; i < count; i++) m_players[i]->setId(i);] *)
Definition renumber (l : list Player) : list Player :=
  imap (fun i p => setId (Z.of_nat i) p) l.

(** ** The manager *)

Section Manager.
Context {Map : Type} `{MapModel Map}.

(** The members of [GameManager] that the slots below read or write.
    [m_timer] is [m_timer.isActive()]; [next_ptr] is the address the next
    [new Player] receives. *)
Record GameManager := mkManager {
  m_map : Map;
  m_players : list Player;
  m_roundsPlayed : Z;
  m_timer : bool;
  next_ptr : nat
}.

Definition with_players (l : list Player) (s : GameManager) : GameManager :=
  mkManager (m_map s) l (m_roundsPlayed s) (m_timer s) (next_ptr s).
Definition with_map (m : Map) (s : GameManager) : GameManager :=
  mkManager m (m_players s) (m_roundsPlayed s) (m_timer s) (next_ptr s).
Definition with_rounds (r : Z) (s : GameManager) : GameManager :=
  mkManager (m_map s) (m_players s) r (m_timer s) (next_ptr s).
Definition with_timer (b : bool) (s : GameManager) : GameManager :=
  mkManager (m_map s) (m_players s) (m_roundsPlayed s) b (next_ptr s).

(** *** loadMap *)

(** "Kick out players if too many":
    [for (i = count-1; i >= 0; --i) {
       if (count() <= startingPositions().count()) break;
       if (!m_players[i]->networkClient()) continue;
       m_players.takeAt(i)->deleteLater(); }]
    [kick cap n l] runs the iterations [i = n-1, .., 0]. *)
Fixpoint kick (cap n : nat) (l : list Player) : list Player :=
  match n with
  | O => l
  | S i =>
      if (length l <=? cap)%nat then l
      else match l !! i with
           | Some p => if attached p then kick cap i (takeAt i l) else kick cap i l
           | None => kick cap i l
           end
  end.

(** "Update positions and id":
    [m_players[i]->setPosition(startingPositions()[i]); m_players[i]->setId(i);]
    for [i] from the given index on; [operator[]] past the end of the
    starting positions stops the slot. *)
Fixpoint place (starts : list QPoint) (i : nat) (l : list Player) : Outcome (list Player) :=
  match l with
  | [] => Done []
  | p :: rest =>
      match starts !! i with
      | None => Crash (IndexOutOfRange i)
      | Some sp =>
          rest' ← place starts (S i) rest;
          mret (setId (Z.of_nat i) (setPosition sp p) :: rest')
      end
  end.

Definition loadMap (path : string) (s : GameManager) : Outcome GameManager :=
  let map := Map_new path in
  if negb (isValid map) then Done s
  else
    let kept := kick (length (startingPositions map)) (length (m_players s)) (m_players s) in
    placed ← place (startingPositions map) 0 kept;
    mret (with_players placed (with_map map s)).

(** *** explosionAt *)

Definition explosionAt (pos : QPoint) (s : GameManager) : GameManager :=
  with_players
    (map (fun p => if QPoint_eqb (position p) pos then setAlive false p else p) (m_players s))
    s.

(** *** endRound *)

(** [if (networkClient()) networkClient()->sendEndOfRound();] for each player. *)
Definition endOfRound_notices (l : list Player) : list Signal :=
  omap (fun p => if attached p then Some (sendEndOfRound (ptr p)) else None) l.

(** [for (..) if (m_players[i]->isAlive()) { m_players[i]->addWin(); break; }] *)
Fixpoint award_first_alive (l : list Player) : list Player :=
  match l with
  | [] => []
  | p :: rest => if isAlive p then addWin p :: rest else p :: award_first_alive rest
  end.

Definition endRound (s : GameManager) : GameManager * list Signal :=
  let s := with_timer false s in
  let notices := endOfRound_notices (m_players s) in
  if m_roundsPlayed s <? 5 then
    (with_rounds (m_roundsPlayed s + 1) (with_players (award_first_alive (m_players s)) s),
     notices ++ [singleShot_startRound])
  else
    (with_rounds 0 s, notices ++ [endScreen_opacity]).

(** *** startRound *)

(** [m_players[i]->setAlive(true); m_players[i]->setPosition(startingPositions()[i]);] *)
Fixpoint revive (starts : list QPoint) (i : nat) (l : list Player) : Outcome (list Player) :=
  match l with
  | [] => Done []
  | p :: rest =>
      match starts !! i with
      | None => Crash (IndexOutOfRange i)
      | Some sp =>
          rest' ← revive starts (S i) rest;
          mret (setPosition sp (setAlive true p) :: rest')
      end
  end.

(** [m_players[i]->networkClient()->disconnect(SIGNAL(nameChanged(QString)));]
    for every player, with no test of the pointer. *)
Fixpoint lock_names (l : list Player) : Outcome (list Signal) :=
  match l with
  | [] => Done []
  | p :: rest =>
      match networkClient p with
      | None => Crash (NullChannel (ptr p))
      | Some _ =>
          sigs ← lock_names rest;
          mret (nameChanged_disconnect (ptr p) :: sigs)
      end
  end.

Definition startRound (s : GameManager) : Outcome (GameManager * list Signal) :=
  match m_players s with
  | [] => Done (s, [])
  | _ =>
      revived ← revive (startingPositions (m_map s)) 0 (m_players s);
      s1 ← loadMap (map_name (m_map s)) (with_players revived s);
      sigs ← lock_names (m_players s1);
      mret (with_timer true s1, sigs)
  end.

(** *** gameTick *)

(** What the [if / else if] chain over [command] selects. *)
Inductive Action :=
  | Move (target : QPoint)
  | PlaceBomb
  | NoAction.

Definition decode (cmd : string) (pos : QPoint) : Action :=
  if String.eqb cmd "UP" then Move (setY pos (y pos - 1))
  else if String.eqb cmd "DOWN" then Move (setY pos (y pos + 1))
  else if String.eqb cmd "LEFT" then Move (setX pos (x pos - 1))
  else if String.eqb cmd "RIGHT" then Move (setX pos (x pos + 1))
  else if String.eqb cmd "BOMB" then PlaceBomb
  else NoAction.

(** In [gameTick] the local list [players] holds pointers to the objects of
    [m_players]; here a pointer is the index of the object in the roster,
    which no statement of the tick reorders, and [order] is the shuffled
    list of these indices.

    [for (j..) if (players[j]->isAlive() && players[j]->position() == position)
       canWalk = false;] *)
Definition check_players (order : list nat) (roster : list Player)
    (target : QPoint) (canWalk : bool) : bool :=
  fold_left (fun cw j =>
    match roster !! j with
    | Some q => if isAlive q && QPoint_eqb (position q) target then false else cw
    | None => cw
    end) order canWalk.

(** [foreach (bomb, m_map->bombs()) if (bomb->position() == position) canWalk = false;] *)
Definition check_bombs (map : Map) (target : QPoint) (canWalk : bool) : bool :=
  fold_left (fun cw b => if QPoint_eqb b target then false else cw) (bombs map) canWalk.

(** The three [canWalk] stages of one move. *)
Definition can_walk (order : list nat) (roster : list Player) (map : Map)
    (target : QPoint) : bool :=
  let canWalk := isValidPosition map target in
  let canWalk := if canWalk then check_players order roster target canWalk else canWalk in
  let canWalk := if canWalk then check_bombs map target canWalk else canWalk in
  canWalk.

(** One iteration of the command loop, for the player [k] points to. *)
Definition resolve (order : list nat) (k : nat) (st : list Player * Map) : list Player * Map :=
  let '(roster, map) := st in
  match roster !! k with
  | None => st
  | Some p =>
      if String.eqb (command p) "" then st
      else
        match decode (command p) (position p) with
        | NoAction => st
        | PlaceBomb => (roster, addBomb map (position p) (ptr p))
        | Move target =>
            if can_walk order roster map target
            then (at_index k (setPosition target) roster, map)
            else st
        end
  end.

Definition resolve_all (order : list nat) (st : list Player * Map) : list Player * Map :=
  fold_left (fun st k => resolve order k st) order st.

(** [int dead = 0; for (..) if (!players[i]->isAlive()) dead++;] *)
Definition count_dead (order : list nat) (roster : list Player) : Z :=
  fold_left (fun dead k =>
    match roster !! k with
    | Some p => if isAlive p then dead else dead + 1
    | None => dead
    end) order 0.

(** The [else] branch: the alive players of [m_players], and for each of
    them that has a channel, [sendState(list, m_map, players[i])] with
    [list] the alive players without index [i]. *)
Definition broadcast (roster : list Player) : list Signal :=
  let players := filter (fun p => isAlive p) roster in
  mjoin (imap (fun i p =>
    if attached p then [sendState (ptr p) (ptr <$> takeAt i players)] else []) players).

(** [QList<QPointer<Player> > players = m_players;] followed by the
    shuffle: the resolution order of the tick. *)
Definition tick_order (rng : nat → nat) (s : GameManager) : list nat :=
  shuffle rng (seq 0 (length (m_players s))).

(** [emit gameOver()] runs the connected slot [endRound] before it returns. *)
Definition gameTick (rng : nat → nat) (s : GameManager) : GameManager * list Signal :=
  let order := tick_order rng s in
  let '(roster, map) := resolve_all order (m_players s, m_map s) in
  let s1 := with_players roster (with_map map s) in
  let dead := count_dead order roster in
  if (0 <? dead) && (Z.of_nat (length order) - dead <? 2) then
    let '(s2, sigs) := endRound s1 in (s2, gameOver :: sigs)
  else (s1, broadcast (m_players s1)).

(** *** Connections *)

Definition addPlayer (client : option NetworkClient) (s : GameManager) : Outcome GameManager :=
  let count := length (m_players s) in
  if (length (startingPositions (m_map s)) <=? count)%nat then Done s
  else
    let player := newPlayer (next_ptr s) (Z.of_nat count) client in
    match startingPositions (m_map s) !! Z.to_nat (id player) with
    | None => Crash (IndexOutOfRange (Z.to_nat (id player)))
    | Some sp =>
        let player := setPosition sp player in
        let player :=
          setName (match client with
                   | None => "Local user"
                   | Some c => remoteName c
                   end) player in
        Done (mkManager (m_map s) (m_players s ++ [player]) (m_roundsPlayed s)
                (m_timer s) (S (next_ptr s)))
    end.

(** [clientConnect]: [c] is the [NetworkClient] the pending socket would be
    wrapped in. *)
Definition clientConnect (c : NetworkClient) (s : GameManager)
    : Outcome (GameManager * list Signal) :=
  if (length (startingPositions (m_map s)) <=? length (m_players s))%nat || m_timer s
  then Done (s, [socket_deleteLater (socket c)])
  else s' ← addPlayer (Some c) s; mret (s', []).

(** [clientDisconnected]: [sender] is the address of the [Player] whose
    signal runs the slot, [None] when [qobject_cast<Player*>] fails. *)
Definition clientDisconnected (sender : option nat) (s : GameManager) : GameManager :=
  if m_timer s then s
  else
    match sender with
    | None => s
    | Some a =>
        match indexOf a (m_players s) with
        | None => s
        | Some index => with_players (renumber (takeAt index (m_players s))) s
        end
    end.

(** [for (..) if (!networkClient()) { takeAt(i); break; }] *)
Fixpoint take_first_human (l : list Player) : list Player :=
  match l with
  | [] => []
  | p :: rest => if attached p then p :: take_first_human rest else rest
  end.

Definition removeHumanPlayers (s : GameManager) : GameManager :=
  with_players (renumber (take_first_human (m_players s))) s.

Definition togglePause (s : GameManager) : GameManager :=
  with_timer (negb (m_timer s)) s.

Definition stopGame (s : GameManager) : GameManager * list Signal :=
  let '(s', sigs) := endRound s in (with_rounds 0 s', sigs).

(** *** Commands *)

(** [connect(m_view->rootObject(), SIGNAL(userMove(QString)), player,
    SLOT(setCommand(QString)))], made in [addPlayer] for each player
    without a channel: a move of the user sets the pending command of
    every such player. *)
Definition userMove (cmd : string) (s : GameManager) : GameManager :=
  with_players
    (map (fun p => if attached p then p else setCommand cmd p) (m_players s)) s.

(** Modelled from the spec: networkclient.h and player.h are not among the
    sources.  The command that arrives on the channel of the player at
    address [a] becomes the pending command of that player. *)
Definition commandReceived (a : nat) (cmd : string) (s : GameManager) : GameManager :=
  with_players
    (map (fun p => if (ptr p =? a)%nat && attached p then setCommand cmd p else p)
       (m_players s)) s.

(** The part of [startRound] that precedes the loop over
    [networkClient()->disconnect(..)]: the players revived and the map
    loaded anew. *)
Definition startRound_setup (s : GameManager) : Outcome GameManager :=
  revived ← revive (startingPositions (m_map s)) 0 (m_players s);
  loadMap (map_name (m_map s)) (with_players revived s).

(** *** Runs *)

(** The calls that reach the manager from the timer, the server, the map,
    the players and the user interface.  [EvStartRound] stands both for the
    user's start and for the call requested by [QTimer::singleShot];
    [EvGameTick] is a timeout of [m_timer], which only a running timer
    delivers; [EvUserMove] and [EvCommand] are the commands of the local
    user and of a remote player. *)
Inductive Event :=
  | EvAddPlayer (client : option NetworkClient)
  | EvClientConnect (c : NetworkClient)
  | EvClientDisconnected (sender : option nat)
  | EvLoadMap (path : string)
  | EvStartRound
  | EvGameTick (rng : nat → nat)
  | EvExplosionAt (pos : QPoint)
  | EvTogglePause
  | EvStopGame
  | EvRemoveHumanPlayers
  | EvUserMove (cmd : string)
  | EvCommand (a : nat) (cmd : string).

Definition step (e : Event) (s : GameManager) : Outcome (GameManager * list Signal) :=
  match e with
  | EvAddPlayer client => s' ← addPlayer client s; mret (s', [])
  | EvClientConnect c => clientConnect c s
  | EvClientDisconnected sender => Done (clientDisconnected sender s, [])
  | EvLoadMap path => s' ← loadMap path s; mret (s', [])
  | EvStartRound => startRound s
  | EvGameTick rng => if m_timer s then Done (gameTick rng s) else Done (s, [])
  | EvExplosionAt pos => Done (explosionAt pos s, [])
  | EvTogglePause => Done (togglePause s, [])
  | EvStopGame => Done (stopGame s)
  | EvRemoveHumanPlayers => Done (removeHumanPlayers s, [])
  | EvUserMove cmd => Done (userMove cmd s, [])
  | EvCommand a cmd => Done (commandReceived a cmd s, [])
  end.

(** A run: the events in order, the signals of all of them in order. *)
Fixpoint run (es : list Event) (s : GameManager) : Outcome (GameManager * list Signal) :=
  match es with
  | [] => Done (s, [])
  | e :: rest =>
      '(s1, sigs1) ← step e s;
      '(s2, sigs2) ← run rest s1;
      mret (s2, sigs1 ++ sigs2)
  end.

(** The manager right after its constructor, on a loaded map. *)
Definition initial (map : Map) : GameManager := mkManager map [] 0 false 0.

End Manager.

Arguments GameManager Map : clear implicits.

(** ** A concrete map

    A rectangular open arena, used to run the slots on concrete rosters:
    every cell inside the border is walkable, a bomb is recorded at the
    cell it is placed on. *)
Record Arena := mkArena {
  a_name : string;
  a_valid : bool;
  a_size : Z;
  a_starts : list QPoint;
  a_bombs : list QPoint
}.

(** The maps that storage holds, by path. *)
Definition arena_of_path (path : string) : Arena :=
  if String.eqb path "maps/duel.map"
  then mkArena path true 5 [mkPoint 1 1; mkPoint 3 3] []
  else if String.eqb path "maps/solo.map"
  then mkArena path true 5 [mkPoint 1 1] []
  else if String.eqb path "maps/broken.map"
  then mkArena path false 0 [] []
  else mkArena path true 5 [mkPoint 1 1; mkPoint 3 3; mkPoint 1 3; mkPoint 3 1] [].

#[global] Instance Arena_map : MapModel Arena := {|
  Map_new := arena_of_path;
  isValid := a_valid;
  map_name := a_name;
  startingPositions := a_starts;
  isValidPosition := fun m p =>
    (0 <? x p) && (x p <? a_size m - 1) && (0 <? y p) && (y p <? a_size m - 1);
  bombs := a_bombs;
  addBomb := fun m p _ => mkArena (a_name m) (a_valid m) (a_size m) (a_starts m) (p :: a_bombs m)
|}.

Definition default_map : Arena := arena_of_path ":/maps/default.map".

(** Two remote clients and random sources for the examples. *)
Definition alice : NetworkClient := mkClient 1 "alice".
Definition bob : NetworkClient := mkClient 2 "bob".
Definition carol : NetworkClient := mkClient 3 "carol".
Definition rng0 : nat → nat := fun _ => 0%nat.

(** The player at index [i] exists and is alive (resp. not alive). *)
Definition alive_at (l : list Player) (i : nat) : bool :=
  match l !! i with Some p => isAlive p | None => false end.
Definition dead_at (l : list Player) (i : nat) : bool :=
  match l !! i with Some p => negb (isAlive p) | None => false end.

(** The indices of the roster whose player is alive. *)
Definition alive_indices (l : list Player) : list nat :=
  filter (fun i => alive_at l i) (seq 0 (length l)).

(** How many players of the roster are not alive, and how many are. *)
Definition dead_players (l : list Player) : Z :=
  Z.of_nat (length (filter (fun p => negb (isAlive p)) l)).
Definition alive_players (l : list Player) : Z :=
  Z.of_nat (length (filter (fun p => isAlive p) l)).

(** Who a tick's snapshots go to, and what the snapshot of the player at
    address [a] lists, in the words of the specification: the alive
    players with a channel; all alive players except the recipient. *)
Definition recipients (l : list Player) : list Player :=
  filter (fun p => isAlive p && attached p) l.
Definition opponents_of (l : list Player) (a : nat) : list nat :=
  filter (fun b => b ≠ a) (ptr <$> filter (fun p => isAlive p) l).

#[global] Instance Signal_eq_dec : EqDecision Signal.
Proof. solve_decision. Defined.

(** One round of a duel in which the player at (3,3) is blown up before
    the next tick, and the six rounds of a match played that way. *)
Definition duel_round : list Event :=
  [EvStartRound; EvExplosionAt (mkPoint 3 3); EvGameTick rng0].
Definition duel_setup : list Event := [EvClientConnect alice; EvClientConnect bob].
Definition five_rounds : list Event :=
  duel_setup ++ duel_round ++ duel_round ++ duel_round ++ duel_round ++ duel_round.

(** Concrete players and rosters. *)
Definition remote (a : nat) (c : NetworkClient) (pos : QPoint) (alive : bool)
    (cmd : string) : Player :=
  mkPlayer a (Z.of_nat a) (remoteName c) pos alive cmd 0 (Some c).
Definition local_user (a : nat) (pos : QPoint) : Player :=
  mkPlayer a (Z.of_nat a) "Local user" pos true "" 0 None.

(** Three remote players in a running round; carol has been blown up. *)
Definition trio : GameManager Arena :=
  mkManager default_map
    [remote 0 alice (mkPoint 1 1) true ""; remote 1 bob (mkPoint 3 3) true "";
     remote 2 carol (mkPoint 1 3) false ""]
    0 true 3.

(** Alice and bob head for the same free cell (2,1). *)
Definition crossing : list Player * Arena :=
  ([remote 0 alice (mkPoint 1 1) true "RIGHT"; remote 1 bob (mkPoint 3 1) true "LEFT"],
   default_map).

(** A full room: the local user and three remote players, no round yet. *)
Definition full_room : GameManager Arena :=
  mkManager default_map
    [local_user 0 (mkPoint 1 1); remote 1 alice (mkPoint 3 3) true "";
     remote 2 bob (mkPoint 1 3) true ""; remote 3 carol (mkPoint 3 1) true ""]
    0 false 4.

(** A duel between rounds, and the same duel while its round runs. *)
Definition duel_idle : GameManager Arena :=
  mkManager default_map
    [remote 0 alice (mkPoint 1 1) true ""; remote 1 bob (mkPoint 3 3) false ""]
    2 false 2.
Definition duel_running : GameManager Arena :=
  mkManager default_map
    [remote 0 alice (mkPoint 1 1) true ""; remote 1 bob (mkPoint 3 3) true ""]
    2 true 2.

(** ** The statements' vocabulary *)

(** The one-cell target of a directional command, in the words of the
    specification: UP = y-1, DOWN = y+1, LEFT = x-1, RIGHT = x+1. *)
Definition one_cell_target (cmd : string) (pos : QPoint) : option QPoint :=
  if decide (cmd = "UP") then Some (mkPoint (x pos) (y pos - 1))
  else if decide (cmd = "DOWN") then Some (mkPoint (x pos) (y pos + 1))
  else if decide (cmd = "LEFT") then Some (mkPoint (x pos - 1) (y pos))
  else if decide (cmd = "RIGHT") then Some (mkPoint (x pos + 1) (y pos))
  else None.

(** Some alive player of the tick's snapshot stands on [target]. *)
Definition occupied (order : list nat) (roster : list Player) (target : QPoint) : Prop :=
  ∃ j q, j ∈ order ∧ roster !! j = Some q ∧ isAlive q = true ∧ position q = target.

(** The three reasons for which a move is rejected. *)
Definition rejected `{MapModel Map} (order : list nat) (roster : list Player)
    (map : Map) (target : QPoint) : Prop :=
  isValidPosition map target = false ∨ occupied order roster target ∨ target ∈ bombs map.

(** The index that the [i]-th call of [qrand()] of a tick selects in a
    roster of [n] players: that iteration stands at [index = n-1-i] and
    swaps it with position [qrand() % (index + 1)]. *)
Definition swap_index (rng : nat → nat) (n i : nat) : nat := (rng i mod (n - i))%nat.

(** The shuffle in the words of the specification: over the indices
    count-1 down to 1, each swapped with the index chosen for it. *)
Definition fisher_yates_loop {A} (rng : nat → nat) (l : list A) : list A :=
  fold_left
    (fun l' index => qSwap index (swap_index rng (length l) (length l - 1 - index)) l')
    (rev (seq 1 (length l - 1))) l.

(** How many of the [M] values [0 .. M-1] that [qrand()] can return select
    the index [j] among [n]. *)
Definition hits (M n j : nat) : nat :=
  length (filter (fun r => (r mod n)%nat = j) (seq 0 M)).

(** The roster invariant of the data model: the players are distinct
    objects allocated before [next_ptr], and every id is the position of
    its player in the roster. *)
Definition ids_dense (l : list Player) : Prop :=
  id <$> l = Z.of_nat <$> seq 0 (length l).

Definition well_formed {Map} (s : GameManager Map) : Prop :=
  NoDup (ptr <$> m_players s)
  ∧ Forall (fun a => (a < next_ptr s)%nat) (ptr <$> m_players s)
  ∧ ids_dense (m_players s).

(** Two cells at most one step apart, along one axis. *)
Definition one_step (p q : QPoint) : Prop :=
  Z.abs (x q - x p) + Z.abs (y q - y p) ≤ 1.

(** No two alive players of the roster stand on the same cell. *)
Definition alive_apart (l : list Player) : Prop :=
  ∀ i j p q, i ≠ j → l !! i = Some p → l !! j = Some q →
    isAlive p = true → isAlive q = true → position p ≠ position q.

(** The roster has a starting position for each of its players. *)
Definition has_room `{MapModel Map} (s : GameManager Map) : Prop :=
  (length (m_players s) ≤ length (startingPositions (m_map s)))%nat.

(** The crossing as a running round. *)
Definition crossing_round : GameManager Arena :=
  mkManager default_map crossing.1 0 true 2.

(** Two local users, more than the solo map holds; alice holding the
    bomb command in a running duel. *)
Definition two_locals : GameManager Arena :=
  mkManager default_map
    [local_user 0 (mkPoint 1 1); local_user 1 (mkPoint 3 3)] 0 false 2.
Definition bomber : list Player * Arena :=
  ([remote 0 alice (mkPoint 1 1) true "BOMB"; remote 1 bob (mkPoint 3 1) true ""],
   default_map).

(** * Properties *)

(** ** Lists *)

Section Lists.
Context {A : Type}.
Implicit Types l : list A.

Lemma qSwap_length i j l : length (qSwap i j l) = length l.
Proof.
  unfold qSwap. destruct (l !! i), (l !! j); try done.
  by rewrite !length_insert.
Qed.

Lemma qSwap_Permutation i j l : qSwap i j l ≡ₚ l.
Proof.
  unfold qSwap.
  destruct (l !! i) as [a|] eqn:Hi; [|done].
  destruct (l !! j) as [b|] eqn:Hj; [|done].
  by apply Permutation_insert_swap.
Qed.

Lemma qSwap_lookup_l i j l a :
  (i < length l)%nat → l !! j = Some a → qSwap i j l !! i = Some a.
Proof.
  intros Hi Hj. unfold qSwap.
  destruct (lookup_lt_is_Some_2 l i Hi) as [b Hb]. rewrite Hb, Hj.
  destruct (decide (i = j)) as [->|Hne].
  - rewrite list_lookup_insert_eq; [congruence|]. by rewrite length_insert.
  - rewrite list_lookup_insert_ne by done.
    by rewrite list_lookup_insert_eq.
Qed.

Lemma qSwap_lookup_above i j l n :
  (i < n)%nat → (j < n)%nat → qSwap i j l !! n = l !! n.
Proof.
  intros Hi Hj. unfold qSwap.
  destruct (l !! i), (l !! j); try done.
  rewrite !list_lookup_insert_ne by lia. done.
Qed.

Lemma fisher_yates_S rng i k l :
  fisher_yates rng (S i) k l
  = fisher_yates rng i (S k) (qSwap (S i) (rng k mod (S i + 1))%nat l).
Proof. done. Qed.

Lemma fisher_yates_length rng index k l :
  length (fisher_yates rng index k l) = length l.
Proof.
  revert k l. induction index as [|i IH]; intros k l; simpl; [done|].
  by rewrite IH, qSwap_length.
Qed.

Lemma fisher_yates_Permutation rng index k l : fisher_yates rng index k l ≡ₚ l.
Proof.
  revert k l. induction index as [|i IH]; intros k l; simpl; [done|].
  by rewrite IH, qSwap_Permutation.
Qed.

Lemma shuffle_Permutation rng l : shuffle rng l ≡ₚ l.
Proof. apply fisher_yates_Permutation. Qed.

(** Only the calls of [qrand()] from the [k]-th on are read. *)
Lemma fisher_yates_ext rng1 rng2 index k l :
  (∀ n, (k ≤ n)%nat → rng1 n = rng2 n) →
  fisher_yates rng1 index k l = fisher_yates rng2 index k l.
Proof.
  revert k l. induction index as [|i IH]; intros k l Hext; simpl; [done|].
  rewrite (Hext k) by lia. apply IH. intros n Hn. apply Hext. lia.
Qed.

Lemma drop_qSwap_above i j l n :
  (i < n)%nat → (j < n)%nat → drop n (qSwap i j l) = drop n l.
Proof.
  intros Hi Hj. apply list_eq. intros m.
  rewrite !lookup_drop. apply qSwap_lookup_above; lia.
Qed.

(** Every arrangement of the list is the result of the loop for some
    values of [qrand()]: once the positions above [m] agree with the
    target, the iterations [m, .., 1] can bring the rest in place. *)
Lemma fisher_yates_reaches m : ∀ k l l',
  l' ≡ₚ l → drop (S m) l = drop (S m) l' →
  ∃ rng, fisher_yates rng m k l = l'.
Proof.
  induction m as [|m IH]; intros k l l' Hperm Hdrop.
  - exists (fun _ => 0%nat). simpl.
    destruct l as [|a t], l' as [|b t'].
    + done.
    + by apply Permutation_length in Hperm.
    + by apply Permutation_length in Hperm.
    + simpl in Hdrop. rewrite !drop_0 in Hdrop. subst t'.
      apply (Permutation_app_inv_r t [b] [a]) in Hperm.
      by apply Permutation_singleton_inj in Hperm as ->.
  - pose proof (Permutation_length Hperm) as Hlen.
    destruct (decide (S m < length l)%nat) as [Hlt|Hge].
    + destruct (lookup_lt_is_Some_2 l' (S m)) as [v Hv]; [lia|].
      assert (take (S (S m)) l' ≡ₚ take (S (S m)) l) as Htake.
      { apply (Permutation_app_inv_r (drop (S (S m)) l)).
        rewrite take_drop. rewrite Hdrop at 1. by rewrite take_drop. }
      assert (v ∈ take (S (S m)) l) as Hin.
      { rewrite <- Htake. apply list_elem_of_lookup. exists (S m).
        rewrite lookup_take_lt by lia. done. }
      apply list_elem_of_lookup in Hin as [j Hj].
      pose proof (lookup_lt_Some _ _ _ Hj) as Hjlt.
      rewrite length_take in Hjlt.
      rewrite lookup_take_lt in Hj by lia.
      destruct (IH (S k) (qSwap (S m) j l) l') as [rng' Hrng'].
      { by rewrite qSwap_Permutation. }
      { rewrite (drop_S l' v (S m)) by done.
        rewrite (drop_S (qSwap (S m) j l) v (S m)).
        - f_equal. rewrite drop_qSwap_above by lia. done.
        - apply qSwap_lookup_l; [lia|done]. }
      exists (fun n => if (n =? k)%nat then j else rng' n).
      rewrite fisher_yates_S, Nat.eqb_refl.
      rewrite (Nat.mod_small j (S m + 1)) by lia.
      rewrite <- Hrng'. apply fisher_yates_ext.
      intros n Hn. destruct (Nat.eqb_spec n k); [lia|done].
    + destruct (IH (S k) l l') as [rng' Hrng']; [done| |].
      { rewrite !drop_ge by lia. done. }
      exists rng'. simpl. unfold qSwap.
      rewrite (lookup_ge_None_2 l (S m)) by lia. done.
Qed.

Lemma shuffle_reaches l l' : l' ≡ₚ l → ∃ rng, shuffle rng l = l'.
Proof.
  intros Hperm. apply fisher_yates_reaches; [done|].
  pose proof (Permutation_length Hperm).
  rewrite !drop_ge by lia. done.
Qed.

(** The positions above the running index are final. *)
Lemma fisher_yates_lookup_above rng m : ∀ k l i,
  (m < i)%nat → fisher_yates rng m k l !! i = l !! i.
Proof.
  induction m as [|m IH]; intros k l i Hi; [done|].
  rewrite fisher_yates_S, IH by lia.
  apply qSwap_lookup_above; [lia|].
  pose proof (Nat.mod_upper_bound (rng k) (S m + 1)). lia.
Qed.

(** The result depends on the values of [qrand()] through the swap
    indices only ... *)
Lemma fisher_yates_same_indices rng1 rng2 m : ∀ k l,
  (∀ i, (i < m)%nat →
     (rng1 (k + i) mod (m - i + 1) = rng2 (k + i) mod (m - i + 1))%nat) →
  fisher_yates rng1 m k l = fisher_yates rng2 m k l.
Proof.
  induction m as [|m IH]; intros k l Hsame; [done|].
  rewrite !fisher_yates_S.
  pose proof (Hsame O ltac:(lia)) as H0.
  rewrite Nat.add_0_r, Nat.sub_0_r in H0. rewrite H0.
  apply IH. intros i Hi. specialize (Hsame (S i) ltac:(lia)).
  by rewrite Nat.add_succ_r in Hsame.
Qed.

(** ... and on a list without repetition two runs that end in the same
    arrangement have used the same swap indices. *)
Lemma fisher_yates_inj rng1 rng2 m : ∀ k l,
  NoDup l → (m < length l)%nat →
  fisher_yates rng1 m k l = fisher_yates rng2 m k l →
  ∀ i, (i < m)%nat →
    (rng1 (k + i) mod (m - i + 1) = rng2 (k + i) mod (m - i + 1))%nat.
Proof.
  induction m as [|m IH]; intros k l Hnd Hlen Heq i Hi; [lia|].
  rewrite !fisher_yates_S in Heq.
  set (j1 := (rng1 k mod (S m + 1))%nat) in *.
  set (j2 := (rng2 k mod (S m + 1))%nat) in *.
  assert (j1 < S m + 1)%nat as Hj1 by (apply Nat.mod_upper_bound; lia).
  assert (j2 < S m + 1)%nat as Hj2 by (apply Nat.mod_upper_bound; lia).
  destruct (lookup_lt_is_Some_2 l j1) as [a Ha]; [lia|].
  destruct (lookup_lt_is_Some_2 l j2) as [b Hb]; [lia|].
  assert (j1 = j2) as Hj.
  { assert (fisher_yates rng1 m (S k) (qSwap (S m) j1 l) !! S m = Some a) as H1.
    { rewrite fisher_yates_lookup_above by lia. by apply qSwap_lookup_l. }
    assert (fisher_yates rng2 m (S k) (qSwap (S m) j2 l) !! S m = Some b) as H2.
    { rewrite fisher_yates_lookup_above by lia. by apply qSwap_lookup_l. }
    rewrite Heq, H2 in H1. injection H1 as ->.
    by eapply NoDup_lookup. }
  destruct i as [|i].
  - by rewrite Nat.add_0_r, Nat.sub_0_r.
  - rewrite Nat.add_succ_r. change (S m - S i)%nat with (m - i)%nat.
    rewrite Hj in Heq.
    apply (IH (S k) (qSwap (S m) j2 l)); [| |done|lia].
    + by rewrite qSwap_Permutation.
    + rewrite qSwap_length. lia.
Qed.

Lemma fold_left_ext_in {B} (f g : list A → B → list A) (xs : list B) : ∀ l,
  (∀ l' x, x ∈ xs → f l' x = g l' x) → fold_left f xs l = fold_left g xs l.
Proof.
  induction xs as [|x xs IH]; intros l Hext; simpl; [done|].
  rewrite (Hext l x) by by left. apply IH.
  intros l' y Hy. apply Hext. by right.
Qed.

(** The recursion of [fisher_yates] is the loop over the indices
    [m, .., 1]. *)
Lemma fisher_yates_fold rng m : ∀ k l,
  fisher_yates rng m k l
  = fold_left (fun l' index => qSwap index (rng (k + (m - index)) mod (index + 1))%nat l')
      (rev (seq 1 m)) l.
Proof.
  induction m as [|m IH]; intros k l; [done|].
  rewrite fisher_yates_S, seq_S, rev_app_distr. simpl rev. simpl app.
  simpl fold_left. rewrite Nat.sub_diag, Nat.add_0_r, IH.
  apply fold_left_ext_in. intros l' index Hin.
  apply list_elem_of_In, in_rev, in_seq in Hin.
  do 3 f_equal. lia.
Qed.

Lemma shuffle_loop rng l : shuffle rng l = fisher_yates_loop rng l.
Proof.
  unfold shuffle, fisher_yates_loop. rewrite fisher_yates_fold.
  apply fold_left_ext_in. intros l' index Hin.
  apply list_elem_of_In, in_rev, in_seq in Hin.
  unfold swap_index. do 2 f_equal; lia.
Qed.

End Lists.

(** *** Residues of the values of qrand() *)

Lemma hits_S M n j :
  hits (S M) n j = (hits M n j + if decide ((M mod n)%nat = j) then 1 else 0)%nat.
Proof.
  unfold hits. rewrite seq_S, filter_app, length_app. simpl.
  rewrite filter_cons, filter_nil. by case_decide.
Qed.

Lemma div_mod_S M n :
  (0 < n)%nat →
  ((M mod n + 1 < n ∧ S M / n = M / n ∧ S M mod n = M mod n + 1)
   ∨ (M mod n + 1 = n ∧ S M / n = M / n + 1 ∧ S M mod n = 0))%nat.
Proof.
  intros Hn.
  pose proof (Nat.div_mod_eq M n) as Hdm.
  pose proof (Nat.mod_upper_bound M n ltac:(lia)) as Hr.
  destruct (decide (M mod n + 1 < n)%nat) as [Hlt|Hge].
  - left. split; [done|]. split.
    + symmetry. apply (Nat.div_unique (S M) n (M / n) (M mod n + 1)); lia.
    + symmetry. apply (Nat.mod_unique (S M) n (M / n) (M mod n + 1)); lia.
  - right. split; [lia|]. split.
    + symmetry. apply (Nat.div_unique (S M) n (M / n + 1) 0); lia.
    + symmetry. apply (Nat.mod_unique (S M) n (M / n + 1) 0); lia.
Qed.

(** Each index is selected by the quotient of the values, and the first
    [M mod n] indices by one more. *)
Lemma hits_count M n j :
  (j < n)%nat →
  hits M n j = (M / n + if decide (j < M mod n)%nat then 1 else 0)%nat.
Proof.
  intros Hj. induction M as [|M IH].
  - unfold hits. simpl. rewrite Nat.Div0.div_0_l, Nat.Div0.mod_0_l.
    case_decide; lia.
  - rewrite hits_S, IH.
    destruct (div_mod_S M n ltac:(lia)) as [(Hlt & -> & ->)|(Heq & -> & ->)];
      repeat case_decide; lia.
Qed.

(** Whatever power of two the number of values of [qrand()] is, index 0
    of three is selected by one value more than index 2. *)
Lemma hits_power_of_two k : hits (2 ^ k) 3 0 = S (hits (2 ^ k) 3 2).
Proof.
  assert ((2 ^ k) mod 3 = 1 ∨ (2 ^ k) mod 3 = 2)%nat as Hr.
  { induction k as [|k IH]; [by left|].
    rewrite Nat.pow_succ_r', <- Nat.Div0.mul_mod_idemp_r.
    destruct IH as [-> | ->]; [by right|by left]. }
  rewrite !hits_count by lia.
  destruct Hr as [-> | ->]; repeat case_decide; lia.
Qed.

(** In a list without repetition, removing index [i] removes exactly the
    occurrences of its element. *)
Lemma delete_filter_NoDup (l : list nat) i a :
  NoDup l → l !! i = Some a → delete i l = filter (fun b => b ≠ a) l.
Proof.
  intros Hnd. revert i. induction Hnd as [|b l Hb Hnd IH]; intros i Hi; [done|].
  destruct i as [|i]; simpl in *.
  - injection Hi as ->. rewrite filter_cons_False by (intros Hne; by apply Hne).
    clear IH. induction l as [|c l IH]; [done|].
    apply not_elem_of_cons in Hb as [Hne Hb]. apply NoDup_cons in Hnd as [_ Hnd].
    rewrite filter_cons_True by done. f_equal. by apply IH.
  - rewrite filter_cons_True.
    + f_equal. by apply IH.
    + intros ->. apply Hb. by eapply list_elem_of_lookup_2.
Qed.

Lemma NoDup_fmap_inj_on {A B} (f : A → B) (l : list A) x y :
  NoDup (f <$> l) → x ∈ l → y ∈ l → f x = f y → x = y.
Proof.
  intros Hnd [i Hi]%list_elem_of_lookup [j Hj]%list_elem_of_lookup Hxy.
  assert (i = j) as ->.
  { apply (NoDup_lookup (f <$> l) i j (f x)); [done| |].
    - by rewrite list_lookup_fmap, Hi.
    - by rewrite list_lookup_fmap, Hj, Hxy. }
  congruence.
Qed.

(** ** The tick engine *)

Lemma QPoint_eqb_eq p q : QPoint_eqb p q = true ↔ p = q.
Proof.
  unfold QPoint_eqb. destruct p as [a b], q as [c d]; simpl.
  rewrite andb_true_iff, !Z.eqb_eq. split.
  - by intros [-> ->].
  - intros [= -> ->]. done.
Qed.

Lemma decode_move cmd pos target :
  one_cell_target cmd pos = Some target → decode cmd pos = Move target.
Proof.
  unfold one_cell_target, decode, setX, setY.
  repeat case_decide; subst; simpl; try congruence; intros [= <-]; done.
Qed.

Lemma one_cell_target_moves cmd pos target :
  one_cell_target cmd pos = Some target → target ≠ pos.
Proof.
  unfold one_cell_target. destruct pos as [a b].
  repeat case_decide; simpl; intros [= <-]; intros [= ?]; lia.
Qed.

Section Tick.
Context {Map : Type} `{MapModel Map}.
Implicit Types (roster : list Player) (order : list nat) (map : Map).

Lemma check_players_false order roster target :
  check_players order roster target false = false.
Proof.
  unfold check_players. induction order as [|j order IH]; simpl; [done|].
  destruct (roster !! j) as [q|]; [|done].
  by destruct (isAlive q && QPoint_eqb (position q) target).
Qed.

Lemma check_players_true order roster target :
  check_players order roster target true = true ↔ ¬ occupied order roster target.
Proof.
  unfold occupied. induction order as [|j order IH].
  - simpl. split; [|done]. intros _ (j & q & Hj & _). by apply elem_of_nil in Hj.
  - change (check_players (j :: order) roster target true)
      with (check_players order roster target
              match roster !! j with
              | Some q => if isAlive q && QPoint_eqb (position q) target then false else true
              | None => true
              end).
    destruct (roster !! j) as [q|] eqn:Hq.
    + destruct (isAlive q && QPoint_eqb (position q) target) eqn:Hocc.
      * rewrite check_players_false. split; [done|]. intros Hno. exfalso. apply Hno.
        apply andb_true_iff in Hocc as [Ha Hp]. apply QPoint_eqb_eq in Hp.
        exists j, q. split; [left|]; done.
      * rewrite IH. split.
        -- intros Hno (j' & q' & Hj' & Hq' & Ha & Hp). apply Hno.
           apply elem_of_cons in Hj' as [->|Hj'].
           ++ rewrite Hq in Hq'. injection Hq' as <-.
              apply QPoint_eqb_eq in Hp. rewrite Ha, Hp in Hocc. done.
           ++ by exists j', q'.
        -- intros Hno (j' & q' & Hj' & Hrest). apply Hno.
           exists j', q'. split; [by right|done].
    + rewrite IH. split.
      * intros Hno (j' & q' & Hj' & Hq' & Hrest). apply Hno.
        apply elem_of_cons in Hj' as [->|Hj']; [congruence|].
        by exists j', q'.
      * intros Hno (j' & q' & Hj' & Hrest). apply Hno.
        exists j', q'. split; [by right|done].
Qed.

Lemma check_bombs_true map target :
  check_bombs map target true = true ↔ target ∉ bombs map.
Proof.
  unfold check_bombs.
  assert (∀ l, fold_left (fun cw b => if QPoint_eqb b target then false else cw) l false
               = false) as Hfalse.
  { induction l as [|b l IH]; simpl; [done|]. by destruct (QPoint_eqb b target). }
  induction (bombs map) as [|b l IH]; simpl.
  - split; [|done]. intros _ Hin. by apply elem_of_nil in Hin.
  - destruct (QPoint_eqb b target) eqn:Hb.
    + rewrite Hfalse. apply QPoint_eqb_eq in Hb as ->.
      split; [done|]. intros Hno. exfalso. apply Hno. by left.
    + rewrite IH. rewrite not_elem_of_cons.
      split; [|by intros [_ ?]]. intros Hno. split; [|done].
      intros ->. assert (QPoint_eqb b b = true) by by apply QPoint_eqb_eq. congruence.
Qed.

Lemma can_walk_true order roster map target :
  can_walk order roster map target = true ↔ ¬ rejected order roster map target.
Proof.
  unfold can_walk, rejected.
  destruct (isValidPosition map target) eqn:Hvalid.
  - destruct (check_players order roster target true) eqn:Hplayers.
    + apply check_players_true in Hplayers.
      rewrite check_bombs_true. split.
      * intros Hb [?|[?|?]]; done.
      * intros Hno Hb. apply Hno. by right; right.
    + split; [done|]. intros Hno.
      assert (¬ occupied order roster target) as Hocc by (intros ?; apply Hno; by right; left).
      apply check_players_true in Hocc. congruence.
  - split; [done|]. intros Hno. exfalso. apply Hno. by left.
Qed.

Lemma resolve_all_app order pre post st :
  fold_left (fun st k => resolve order k st) (pre ++ post) st
  = fold_left (fun st k => resolve order k st) post
      (fold_left (fun st k => resolve order k st) pre st).
Proof. apply fold_left_app. Qed.

(** C5. When the loop of [gameTick] reaches a player [p] whose pending
    command is directional, the target is the one-cell offset of the
    command (UP = y-1, DOWN = y+1, LEFT = x-1, RIGHT = x+1).  The roster
    and map at that moment are those left by the players resolved earlier
    in the same tick.  The move is rejected, leaving roster and map as
    they are, exactly when the target is not walkable, or an alive player
    of the snapshot stands on it, or a bomb lies on it; otherwise the
    target becomes the position of [p] and nothing else changes. *)
Theorem directional_move_resolution order pre k post st0 p target :
  order = pre ++ k :: post →
  let st := fold_left (fun st k => resolve order k st) pre st0 in
  st.1 !! k = Some p →
  one_cell_target (command p) (position p) = Some target →
  resolve_all order st0
    = fold_left (fun st k => resolve order k st) post (resolve order k st)
  ∧ target ≠ position p
  ∧ (rejected order st.1 st.2 target → resolve order k st = st)
  ∧ (¬ rejected order st.1 st.2 target →
       resolve order k st = (<[k := setPosition target p]> st.1, st.2)).
Proof.
  intros Horder st Hp Htarget.
  split; [|split; [|split]].
  - unfold resolve_all. subst order. rewrite resolve_all_app. done.
  - by eapply one_cell_target_moves.
  - intros Hrej. destruct st as [roster map]; simpl in *.
    rewrite Hp. destruct (String.eqb (command p) ""); [done|].
    rewrite (decode_move _ _ _ Htarget).
    destruct (can_walk order roster map target) eqn:Hwalk; [|done].
    apply can_walk_true in Hwalk. done.
  - intros Hok. destruct st as [roster map]; simpl in *.
    rewrite Hp.
    assert (String.eqb (command p) "" = false) as ->.
    { apply String.eqb_neq. intros Hempty. rewrite Hempty in Htarget.
      unfold one_cell_target in Htarget. repeat case_decide; congruence. }
    rewrite (decode_move _ _ _ Htarget).
    apply can_walk_true in Hok. rewrite Hok.
    f_equal. unfold at_index. apply list_eq. intros i.
    destruct (decide (i = k)) as [->|Hne].
    + rewrite list_lookup_alter_eq, Hp. simpl.
      rewrite list_lookup_insert_eq; [done|]. by eapply lookup_lt_Some.
    + rewrite list_lookup_alter_ne, list_lookup_insert_ne by done. done.
Qed.

(** *** What a tick leaves untouched *)

Lemma resolve_keeps {B} (f : Player → B) order k st :
  (∀ t p, f (setPosition t p) = f p) →
  f <$> (resolve order k st).1 = f <$> st.1.
Proof.
  intros Hf. destruct st as [roster map]. unfold resolve.
  destruct (roster !! k) as [p|]; [|done].
  destruct (String.eqb (command p) ""); [done|].
  destruct (decode (command p) (position p)) as [target| |]; try done.
  destruct (can_walk order roster map target); [|done].
  simpl. unfold at_index.
  rewrite (list_fmap_alter f (setPosition target) (fun b => b))
    by (apply Forall_forall; intros; apply Hf).
  by rewrite list_alter_id.
Qed.

Lemma resolve_all_keeps {B} (f : Player → B) order st :
  (∀ t p, f (setPosition t p) = f p) →
  f <$> (resolve_all order st).1 = f <$> st.1.
Proof.
  intros Hf. unfold resolve_all.
  assert (∀ ks st', f <$> (fold_left (fun st k => resolve order k st) ks st').1
                    = f <$> st'.1) as Hfold; [|apply Hfold].
  induction ks as [|k ks IH]; intros st'; simpl; [done|].
  by rewrite IH, resolve_keeps.
Qed.

Lemma award_first_alive_keeps {B} (f : Player → B) l :
  (∀ p, f (addWin p) = f p) → f <$> award_first_alive l = f <$> l.
Proof.
  intros Hf. induction l as [|p l IH]; simpl; [done|].
  destruct (isAlive p); csimpl; by rewrite ?Hf, ?IH.
Qed.

Lemma endRound_keeps {B} (f : Player → B) (s : GameManager Map) :
  (∀ p, f (addWin p) = f p) →
  f <$> m_players (endRound s).1 = f <$> m_players s.
Proof.
  intros Hf. unfold endRound.
  destruct (m_roundsPlayed (with_timer false s) <? 5); simpl; [|done].
  by apply award_first_alive_keeps.
Qed.

(** *** Counting the dead *)

Lemma count_dead_filter order roster :
  count_dead order roster = Z.of_nat (length (filter (fun k => dead_at roster k) order)).
Proof.
  unfold count_dead.
  assert (∀ acc,
    fold_left (fun dead k =>
      match roster !! k with
      | Some p => if isAlive p then dead else dead + 1
      | None => dead
      end) order acc
    = acc + Z.of_nat (length (filter (fun k => dead_at roster k) order))) as Hacc.
  { induction order as [|k order IH]; intros acc; simpl; [lia|].
    rewrite IH, filter_cons. case_decide as Hdead; unfold dead_at in Hdead;
      destruct (roster !! k) as [p|]; [destruct (isAlive p)| |destruct (isAlive p)|];
      simpl in *; try tauto; lia. }
  rewrite Hacc. lia.
Qed.

Lemma dead_at_seq pre roster :
  length (filter (fun k => dead_at (pre ++ roster) k) (seq (length pre) (length roster)))
  = length (filter (fun p => negb (isAlive p)) roster).
Proof.
  revert pre. induction roster as [|p roster IH]; intros pre; simpl; [done|].
  assert (dead_at (pre ++ p :: roster) (length pre) = negb (isAlive p)) as Hhead.
  { unfold dead_at. by rewrite list_lookup_middle. }
  specialize (IH (pre ++ [p])). rewrite <- app_assoc, length_app in IH. simpl in IH.
  rewrite Nat.add_1_r in IH.
  rewrite !filter_cons. case_decide as Hdead; rewrite Hhead in Hdead;
    destruct (isAlive p); simpl in *; try tauto; by rewrite IH.
Qed.

Lemma count_dead_roster order roster :
  order ≡ₚ seq 0 (length roster) →
  count_dead order roster = dead_players roster.
Proof.
  intros Hperm. rewrite count_dead_filter. unfold dead_players.
  rewrite Hperm. by rewrite <- (dead_at_seq [] roster).
Qed.

Lemma dead_plus_alive l : dead_players l + alive_players l = Z.of_nat (length l).
Proof.
  unfold dead_players, alive_players.
  induction l as [|p l IH]; simpl; [done|].
  rewrite !filter_cons. destruct (isAlive p); simpl in *; lia.
Qed.

Lemma dead_players_flags l l' :
  isAlive <$> l = isAlive <$> l' → dead_players l = dead_players l'.
Proof.
  unfold dead_players. revert l'.
  induction l as [|p l IH]; intros [|p' l']; simpl; try done.
  intros [= Hp Hl]. rewrite !filter_cons, Hp.
  specialize (IH _ Hl). destruct (isAlive p'); simpl in *; lia.
Qed.

Lemma tick_order_Permutation rng (s : GameManager Map) :
  tick_order rng s ≡ₚ seq 0 (length (m_players s)).
Proof. apply shuffle_Permutation. Qed.

Lemma gameOver_not_broadcast roster : gameOver ∉ broadcast roster.
Proof.
  unfold broadcast. generalize (filter (fun p => isAlive p) roster) at 1. intros l.
  generalize (filter (fun p => isAlive p) roster). intros players.
  intros Hin. apply list_elem_of_join in Hin as (sigs & Hin & Hsigs).
  apply elem_of_lookup_imap in Hsigs as (i & p & -> & _).
  destruct (attached p).
  - apply list_elem_of_singleton in Hin. done.
  - by apply elem_of_nil in Hin.
Qed.

(** The test [dead > 0 && players.size() - dead < 2], on the roster as it
    is when the tick starts. *)
Lemma gameTick_cases rng (s : GameManager Map) :
  let over := (0 <? dead_players (m_players s))
              && (Z.of_nat (length (m_players s)) - dead_players (m_players s) <? 2) in
  ∃ roster map,
    resolve_all (tick_order rng s) (m_players s, m_map s) = (roster, map) ∧
    gameTick rng s =
      if over
      then ((endRound (with_players roster (with_map map s))).1,
            gameOver :: (endRound (with_players roster (with_map map s))).2)
      else (with_players roster (with_map map s), broadcast roster).
Proof.
  intros over. unfold gameTick.
  pose proof (resolve_all_keeps isAlive (tick_order rng s) (m_players s, m_map s)
                ltac:(done)) as Hflags.
  destruct (resolve_all (tick_order rng s) (m_players s, m_map s)) as [roster map].
  simpl in Hflags. exists roster, map. split; [done|].
  assert (length roster = length (m_players s)) as Hlen.
  { by rewrite <- (length_fmap isAlive roster), Hflags, length_fmap. }
  rewrite count_dead_roster
    by (simpl; rewrite Hlen; apply tick_order_Permutation).
  simpl. rewrite (dead_players_flags _ _ Hflags).
  rewrite (Permutation_length (tick_order_Permutation rng s)), length_seq.
  fold over. destruct over; [|done].
  by destruct (endRound _).
Qed.

(** *** The broadcast *)

Lemma alive_attached_filter roster :
  filter (fun p => attached p) (filter (fun p => isAlive p) roster) = recipients roster.
Proof.
  unfold recipients. rewrite list_filter_filter. apply list_filter_iff.
  intros p. destruct (isAlive p), (attached p); simpl; tauto.
Qed.

Lemma broadcast_recipients roster :
  NoDup (ptr <$> roster) →
  broadcast roster
  = (fun p => sendState (ptr p) (opponents_of roster (ptr p))) <$> recipients roster.
Proof.
  intros Hnd. unfold broadcast, opponents_of.
  rewrite <- alive_attached_filter.
  assert (NoDup (ptr <$> filter (fun p => isAlive p) roster)) as Halive.
  { apply (sublist_NoDup _ _ Hnd), fmap_sublist, sublist_filter. }
  set (players := filter (fun p => isAlive p) roster) in *.
  set (g := fun p => sendState (ptr p) (filter (fun b => b ≠ ptr p) (ptr <$> players))).
  rewrite (imap_ext _ (fun _ p => if attached p then [g p] else [])).
  - change (fun (_ : nat) p => if attached p then [g p] else [])
      with (@const _ nat (fun p => if attached p then [g p] else [])).
    rewrite imap_const. clearbody g. clear.
    induction players as [|p players IH]; [done|].
    rewrite fmap_cons, filter_cons. simpl. rewrite IH.
    destruct (attached p); done.
  - intros i p Hp. simpl. destruct (attached p); [|done].
    unfold g, takeAt. rewrite list_fmap_delete.
    rewrite (delete_filter_NoDup _ i (ptr p)); [done|done|].
    by rewrite list_lookup_fmap, Hp.
Qed.

(** C4, as the code has it.  On a tick that does not end the round, the
    signals are exactly one [sendState] for each alive player with a
    channel, in roster order; the opponents listed for a recipient are the
    alive players of the roster other than the recipient, so the recipient
    is never in its own list and every listed player is an alive roster
    member; a player of the roster that is dead or has no channel gets no
    snapshot.  A disconnect that arrives while the timer runs changes
    none of this: the tick that follows it sends the same snapshots, the
    one to the disconnected player included. *)
Theorem snapshots_reach_alive_attached rng (s s' : GameManager Map) sigs :
  NoDup (ptr <$> m_players s) →
  gameTick rng s = (s', sigs) →
  gameOver ∉ sigs →
  sigs = (fun p => sendState (ptr p) (opponents_of (m_players s') (ptr p)))
           <$> recipients (m_players s')
  ∧ (∀ a opp, sendState a opp ∈ sigs →
       (a ∉ opp)
       ∧ (∀ b, b ∈ opp ↔ b ≠ a ∧ ∃ q, q ∈ m_players s' ∧ ptr q = b ∧ isAlive q = true))
  ∧ (∀ p, p ∈ m_players s' → isAlive p = false ∨ attached p = false →
       ∀ opp, sendState (ptr p) opp ∉ sigs)
  ∧ (m_timer s = true →
       ∀ sender, gameTick rng (clientDisconnected sender s) = (s', sigs)).
Proof.
  intros Hnd Htick Hover.
  assert (m_timer s = true →
          ∀ sender, gameTick rng (clientDisconnected sender s) = (s', sigs)) as Hdisc.
  { intros Htimer sender. unfold clientDisconnected. by rewrite Htimer. }
  destruct (gameTick_cases rng s) as (roster & map & Hres & Hcases).
  rewrite Htick in Hcases.
  destruct (_ && _) in Hcases.
  { injection Hcases as _ ->. exfalso. apply Hover. by left. }
  injection Hcases as -> ->. simpl.
  assert (NoDup (ptr <$> roster)) as Hnd'.
  { pose proof (resolve_all_keeps ptr (tick_order rng s) (m_players s, m_map s)
                  ltac:(done)) as Hptr.
    rewrite Hres in Hptr. simpl in Hptr. by rewrite Hptr. }
  pose proof (broadcast_recipients roster Hnd') as Hsig.
  split; [done|]. split; [|split; [|exact Hdisc]]; rewrite Hsig.
  - intros a opp Hin.
    apply list_elem_of_fmap in Hin as (p & [= -> ->] & Hp).
    unfold opponents_of. split.
    + rewrite list_elem_of_filter. tauto.
    + intros b. rewrite list_elem_of_filter, list_elem_of_fmap.
      split.
      * intros [Hne (q & -> & Hq)]. split; [done|].
        apply list_elem_of_filter in Hq as [Hq1 Hq2].
        exists q. split; [done|]. split; [done|]. by apply Is_true_true.
      * intros [Hne (q & Hq & <- & Ha)]. split; [done|].
        exists q. split; [done|]. apply list_elem_of_filter.
        split; [by apply Is_true_true|done].
  - intros p Hp Hout opp Hin.
    apply list_elem_of_fmap in Hin as (r & [= Hptr _] & Hr).
    apply list_elem_of_filter in Hr as [Hr1 Hr2].
    assert (p = r) as -> by by eapply (NoDup_fmap_inj_on ptr roster).
    apply andb_prop_elim in Hr1 as [Ha Hc].
    apply Is_true_true in Ha, Hc. destruct Hout; congruence.
Qed.

(** *** Round-over *)

(** C1, as the code has it.  A tick kills nobody, and it emits the
    round-over signal if and only if the roster holds at least one player
    that is not alive, whenever it died, and fewer than two that are
    alive.  On a tick with no dead player in the roster there is no
    round-over, whatever the size of the roster. *)
Theorem round_over_iff_dead_in_roster rng (s : GameManager Map) :
  isAlive <$> m_players (gameTick rng s).1 = isAlive <$> m_players s
  ∧ (gameOver ∈ (gameTick rng s).2
     ↔ 0 < dead_players (m_players s) ∧ alive_players (m_players s) < 2)
  ∧ (dead_players (m_players s) = 0 → gameOver ∉ (gameTick rng s).2).
Proof.
  destruct (gameTick_cases rng s) as (roster & map & Hres & Hcases).
  pose proof (resolve_all_keeps isAlive (tick_order rng s) (m_players s, m_map s)
                ltac:(done)) as Hflags.
  rewrite Hres in Hflags. simpl in Hflags.
  pose proof (dead_plus_alive (m_players s)) as Hsum.
  assert (gameOver ∈ (gameTick rng s).2
          ↔ 0 < dead_players (m_players s) ∧ alive_players (m_players s) < 2) as Hiff.
  { rewrite Hcases.
    destruct (0 <? dead_players (m_players s)) eqn:Hdead;
      [destruct (Z.of_nat (length (m_players s)) - dead_players (m_players s) <? 2)
         eqn:Hfew|]; simpl.
    - split; [|intros; by left]. intros _. lia.
    - split; [intros Hin; by apply gameOver_not_broadcast in Hin|]. lia.
    - split; [intros Hin; by apply gameOver_not_broadcast in Hin|]. lia. }
  split; [|split; [done|]].
  - rewrite Hcases. destruct (_ && _); simpl; [|done].
    by rewrite endRound_keeps.
  - intros Hzero Hin. apply Hiff in Hin. lia.
Qed.

(** *** The resolution order *)

(** C6, as the code has it.  The resolution order of a tick is a
    permutation of the whole roster snapshot, dead players included.  It
    is produced by the loop over the indices count-1 down to 1 that swaps
    each index with the index [qrand() % (index + 1)], which lies in
    [0, index].  Two ticks resolve in the same order if and only if they
    drew the same swap indices, and every arrangement of the roster is
    drawn by some swap indices: orders and sequences of swap indices
    correspond one to one, so that no roster position is favoured by the
    loop.  Among the [M] values that [qrand()] can return, any two
    indices of [0, index] are selected by equally many values or by
    numbers of values that differ by one, and all by equally many exactly
    when [index + 1] divides [M]. *)
Theorem tick_order_permutes_roster rng (s : GameManager Map) :
  let n := length (m_players s) in
  tick_order rng s ≡ₚ seq 0 n
  ∧ tick_order rng s = fisher_yates_loop rng (seq 0 n)
  ∧ (∀ i, (i < n - 1)%nat → (swap_index rng n i ≤ n - 1 - i)%nat)
  ∧ (∀ rng', tick_order rng s = tick_order rng' s
       ↔ ∀ i, (i < n - 1)%nat → swap_index rng n i = swap_index rng' n i)
  ∧ (∀ order, order ≡ₚ seq 0 n → ∃ rng', tick_order rng' s = order)
  ∧ (∀ M index j j', (j ≤ index)%nat → (j' ≤ index)%nat →
       (hits M (index + 1) j ≤ hits M (index + 1) j' + 1)%nat
       ∧ ((M mod (index + 1))%nat = 0%nat →
          hits M (index + 1) j = hits M (index + 1) j'))
  ∧ (∀ M index,
       (∀ j j', (j ≤ index)%nat → (j' ≤ index)%nat →
          hits M (index + 1) j = hits M (index + 1) j')
       ↔ (M mod (index + 1))%nat = 0%nat).
Proof.
  intros n.
  assert (∀ r i, (i < n - 1)%nat → swap_index r n i = (r (0 + i) mod (n - 1 - i + 1))%nat)
    as Hswap.
  { intros r i Hi. unfold swap_index. simpl. f_equal. lia. }
  split; [apply tick_order_Permutation|].
  split; [apply shuffle_loop|].
  split.
  { intros i Hi. unfold swap_index.
    pose proof (Nat.mod_upper_bound (rng i) (n - i)). lia. }
  split.
  { intros rng'. unfold tick_order, shuffle. rewrite length_seq. fold n. split.
    - intros Heq i Hi. rewrite !Hswap by done.
      apply (fisher_yates_inj rng rng' (n - 1) 0 (seq 0 n)); try done.
      + apply NoDup_seq.
      + rewrite length_seq. lia.
    - intros Hsame. apply fisher_yates_same_indices.
      intros i Hi. rewrite <- !Hswap by done. by apply Hsame. }
  split; [intros order Hperm; by apply shuffle_reaches|].
  split.
  { intros M index j j' Hj Hj'. rewrite !hits_count by lia.
    split; [repeat case_decide; lia|].
    intros ->. repeat case_decide; lia. }
  intros M index. split.
  - intros Hall. specialize (Hall O index ltac:(lia) ltac:(lia)).
    rewrite !hits_count in Hall by lia.
    pose proof (Nat.mod_upper_bound M (index + 1) ltac:(lia)).
    repeat case_decide; lia.
  - intros Hzero j j' Hj Hj'. rewrite !hits_count by lia.
    rewrite Hzero. repeat case_decide; lia.
Qed.

End Tick.

(** ** The round manager *)

Section Rounds.
Context {Map : Type} `{MapModel Map}.
Implicit Types (s : GameManager Map) (l : list Player).

Lemma award_first_alive_cases l :
  (Forall (fun p => isAlive p = false) l ∧ award_first_alive l = l)
  ∨ (∃ i p, l !! i = Some p ∧ isAlive p = true
       ∧ (∀ j q, (j < i)%nat → l !! j = Some q → isAlive q = false)
       ∧ award_first_alive l = <[i := addWin p]> l).
Proof.
  induction l as [|p l IH]; simpl.
  - left. by split.
  - destruct (isAlive p) eqn:Hp.
    + right. exists O, p. split; [done|]. split; [done|]. split; [|done].
      intros j q Hj. lia.
    + destruct IH as [[Hall Heq]|(i & q & Hq & Ha & Hbefore & Heq)].
      * left. split; [by constructor|]. by rewrite Heq.
      * right. exists (S i), q. split; [done|]. split; [done|]. split.
        -- intros [|j] r Hj Hr; simpl in Hr; [congruence|].
           apply (Hbefore j); [lia|done].
        -- simpl. by rewrite Heq.
Qed.

(** X18. At a round resolution reached with the round counter below 5,
    either no player is alive and the roster is left as it is, or the
    first alive player in roster order gets exactly one win and nothing
    else in the roster changes; when ids match roster positions, that
    player has the least id among the alive ones. *)
Theorem endRound_awards_first_alive s :
  m_roundsPlayed s < 5 →
  let roster := m_players s in
  let roster' := m_players (endRound s).1 in
  ((∀ p, p ∈ roster → isAlive p = false) ∧ roster' = roster)
  ∨ (∃ i p, roster !! i = Some p ∧ isAlive p = true
       ∧ (∀ j q, (j < i)%nat → roster !! j = Some q → isAlive q = false)
       ∧ roster' = <[i := addWin p]> roster
       ∧ wins (addWin p) = wins p + 1
       ∧ ((∀ k r, roster !! k = Some r → id r = Z.of_nat k) →
          ∀ r, r ∈ roster → isAlive r = true → id p ≤ id r)).
Proof.
  intros Hrounds roster roster'.
  assert (roster' = award_first_alive roster) as ->.
  { unfold roster', endRound. simpl.
    destruct (m_roundsPlayed s <? 5) eqn:Hlt; [done|]. lia. }
  destruct (award_first_alive_cases roster) as [[Hall Heq]|(i & p & Hp & Ha & Hbefore & Heq)].
  - left. split; [|done]. intros p Hp. by eapply (proj1 (Forall_forall _ _) Hall).
  - right. exists i, p. repeat (split; [done|]).
    intros Hids r [k Hk]%list_elem_of_lookup Hr.
    rewrite (Hids _ _ Hp), (Hids _ _ Hk).
    destruct (decide (k < i)%nat) as [Hlt|Hge]; [|lia].
    specialize (Hbefore _ _ Hlt Hk). congruence.
Qed.

End Rounds.

(** ** Map changes *)

Section Eviction.
Context {Map : Type} `{MapModel Map}.
Implicit Types (s : GameManager Map) (l : list Player).

Lemma filter_Forall_id {A} (P : A → Prop) `{∀ a, Decision (P a)} (l : list A) :
  Forall P l → filter P l = l.
Proof.
  induction 1 as [|a l Ha Hl IH]; [done|].
  by rewrite filter_cons_True, IH.
Qed.

Lemma kick_fits cap n l : (length l ≤ cap)%nat → kick cap n l = l.
Proof.
  intros Hfit. destruct n as [|i]; simpl; [done|].
  destruct (Nat.leb_spec (length l) cap); [done|lia].
Qed.

(** The evictions cut the roster at some index [j]: below [j] everybody
    stays, from [j] on only the players without a channel stay. *)
Lemma kick_cut cap n : ∀ l,
  (n ≤ length l)%nat →
  Forall (fun p => negb (attached p)) (drop n l) →
  ∃ j, (j ≤ n)%nat
    ∧ kick cap n l = take j l ++ filter (fun p => negb (attached p)) (drop j l).
Proof.
  induction n as [|i IH]; intros l Hn Hlocal.
  - exists O. split; [done|]. simpl. rewrite drop_0 in *.
    by rewrite filter_Forall_id.
  - simpl. destruct (Nat.leb_spec (length l) cap) as [Hfit|Hover].
    { exists (S i). split; [done|].
      by rewrite filter_Forall_id, take_drop. }
    destruct (lookup_lt_is_Some_2 l i) as [p Hp]; [lia|]. rewrite Hp.
    pose proof (take_drop_middle l i p Hp) as Hsplit.
    destruct (attached p) eqn:Hatt.
    + destruct (IH (takeAt i l)) as (j & Hj & Hkick).
      { unfold takeAt. rewrite length_delete by eauto. lia. }
      { unfold takeAt. rewrite delete_take_drop.
        rewrite drop_app_length'; [done|]. rewrite length_take. lia. }
      exists j. split; [lia|]. rewrite Hkick. unfold takeAt.
      rewrite delete_take_drop.
      assert (length (take i l) = i) as Hpre by (rewrite length_take; lia).
      revert Hsplit Hpre. generalize (take i l) (drop (S i) l). intros pre suf <- Hpre.
      rewrite !take_app_le by lia. f_equal.
      rewrite !drop_app_le by lia.
      rewrite !filter_app. f_equal.
      rewrite filter_cons_False; [done|]. rewrite Hatt. simpl. tauto.
    + destruct (IH l) as (j & Hj & Hkick); [lia| |].
      { rewrite (drop_S l p i Hp). constructor; [|done]. by rewrite Hatt. }
      exists j. split; [lia|done].
Qed.

Lemma kick_length cap n : ∀ l,
  (n ≤ length l)%nat →
  (length l - cap ≤ length (filter (fun p => attached p) (take n l)))%nat →
  length (kick cap n l) = (length l `min` cap)%nat.
Proof.
  induction n as [|i IH]; intros l Hn Hnet.
  - simpl in *. lia.
  - simpl. destruct (Nat.leb_spec (length l) cap) as [Hfit|Hover]; [lia|].
    destruct (lookup_lt_is_Some_2 l i) as [p Hp]; [lia|]. rewrite Hp.
    rewrite (take_S_r l i p Hp), filter_app, length_app in Hnet.
    destruct (attached p) eqn:Hatt.
    + rewrite IH.
      * unfold takeAt. rewrite length_delete by eauto. lia.
      * unfold takeAt. rewrite length_delete by eauto. lia.
      * unfold takeAt. rewrite length_delete by eauto.
        rewrite delete_take_drop, take_app_le by (rewrite length_take; lia).
        rewrite take_take, Nat.min_id.
        rewrite filter_cons_True in Hnet by by rewrite Hatt.
        simpl in Hnet. lia.
    + rewrite IH; [done|lia|].
      rewrite filter_cons_False in Hnet by (rewrite Hatt; simpl; tauto).
      simpl in Hnet. lia.
Qed.

Lemma attached_or_not l :
  (length (filter (fun p => attached p) l)
   + length (filter (fun p => negb (attached p)) l) = length l)%nat.
Proof.
  induction l as [|p l IH]; [done|].
  rewrite !filter_cons. destruct (attached p); simpl; lia.
Qed.

Lemma place_Done starts : ∀ l i,
  (i + length l ≤ length starts)%nat →
  ∃ l', place starts i l = Done l'
    ∧ length l' = length l
    ∧ ∀ k p, l !! k = Some p →
        ∃ sp, starts !! (i + k)%nat = Some sp
          ∧ l' !! k = Some (setId (Z.of_nat (i + k)) (setPosition sp p)).
Proof.
  induction l as [|p l IH]; intros i Hfit; simpl in *.
  - exists []. split; [done|]. split; [done|]. intros k q Hk. done.
  - destruct (lookup_lt_is_Some_2 starts i) as [sp Hsp]; [lia|]. rewrite Hsp.
    destruct (IH (S i)) as (l' & -> & Hlen & Hl'); [lia|].
    exists (setId (Z.of_nat i) (setPosition sp p) :: l').
    split; [done|]. split; [simpl; lia|].
    intros [|k] q Hk; simpl in Hk.
    + injection Hk as <-. exists sp. rewrite Nat.add_0_r. done.
    + destruct (Hl' k q Hk) as (sq & Hsq & Hq).
      exists sq. rewrite <- Nat.add_succ_comm. done.
Qed.

Lemma kick_length_short cap n : ∀ l,
  (n ≤ length l)%nat →
  (length (filter (fun p => attached p) (take n l)) ≤ length l - cap)%nat →
  length (kick cap n l)
  = (length l - length (filter (fun p => attached p) (take n l)))%nat.
Proof.
  induction n as [|i IH]; intros l Hn Hnet.
  - simpl in *. lia.
  - simpl kick. destruct (Nat.leb_spec (length l) cap) as [Hfit|Hover]; [lia|].
    destruct (lookup_lt_is_Some_2 l i) as [p Hp]; [lia|]. rewrite Hp.
    rewrite (take_S_r l i p Hp), filter_app, length_app in Hnet |- *.
    destruct (attached p) eqn:Hatt.
    + rewrite filter_cons_True in Hnet |- * by by rewrite Hatt.
      simpl in Hnet |- *.
      assert (take i (takeAt i l) = take i l) as Htake.
      { unfold takeAt.
        rewrite delete_take_drop, take_app_le by (rewrite length_take; lia).
        by rewrite take_take, Nat.min_id. }
      rewrite IH.
      * unfold takeAt at 1. rewrite length_delete by eauto. rewrite Htake. lia.
      * unfold takeAt. rewrite length_delete by eauto. lia.
      * rewrite Htake. unfold takeAt. rewrite length_delete by eauto. lia.
    + rewrite filter_cons_False in Hnet |- * by (rewrite Hatt; simpl; tauto).
      simpl in Hnet |- *. rewrite IH; lia.
Qed.

Lemma kick_length_any cap l :
  length (kick cap (length l) l)
  = (length (filter (fun p => negb (attached p)) l) `max` (length l `min` cap))%nat.
Proof.
  pose proof (attached_or_not l) as Hsum.
  destruct (decide (length (filter (fun p => negb (attached p)) l) ≤ cap)%nat)
    as [Hfit|Hover].
  - rewrite kick_length; [lia|done|]. rewrite firstn_all. lia.
  - rewrite kick_length_short; [|done|]; rewrite firstn_all; lia.
Qed.

(** C9, as the code has it.  The eviction loop of a map load cuts the
    roster at some index [j]: every player below [j] stays, from [j] up
    only players without a channel stay, so that the evicted players are
    network players taken from the highest index downward and no local
    player is evicted.  Nothing is evicted when the roster fits;
    otherwise players are evicted until the roster fits or only its local
    players are left above the cut.  When the remaining roster fits the
    new map, which it does whenever the map has room for the local
    players, the load of a valid map completes, installs the map and
    gives each remaining player the starting position of its index and
    its index as id.  The load of an invalid map changes nothing. *)
Theorem loadMap_evicts_network_from_end path s :
  let map := Map_new path in
  let cap := length (startingPositions map) in
  let roster := m_players s in
  let locals := length (filter (fun p => negb (attached p)) roster) in
  ∃ j,
    let kept := take j roster ++ filter (fun p => negb (attached p)) (drop j roster) in
    kick cap (length roster) roster = kept
    ∧ ((length roster ≤ cap)%nat → kept = roster)
    ∧ length kept = (locals `max` (length roster `min` cap))%nat
    ∧ filter (fun p => negb (attached p)) kept
      = filter (fun p => negb (attached p)) roster
    ∧ (isValid map = true → (length kept ≤ cap)%nat →
       ∃ s', loadMap path s = Done s' ∧ m_map s' = map
         ∧ length (m_players s') = length kept
         ∧ ∀ i p, kept !! i = Some p →
             ∃ sp, startingPositions map !! i = Some sp
               ∧ m_players s' !! i = Some (setId (Z.of_nat i) (setPosition sp p)))
    ∧ (isValid map = false → loadMap path s = Done s).
Proof.
  intros map cap roster locals.
  destruct (kick_cut cap (length roster) roster) as (j & Hj & Hkick); [done| |].
  { rewrite drop_all. constructor. }
  exists j. simpl. rewrite <- Hkick.
  split; [done|].
  split; [intros Hfit; by apply kick_fits|].
  split; [apply kick_length_any|].
  split.
  { rewrite Hkick, filter_app, list_filter_filter_l by done.
    by rewrite <- filter_app, take_drop. }
  split.
  - intros Hvalid Hfit.
    destruct (place_Done (startingPositions map) (kick cap (length roster) roster) O)
      as (placed & Hplace & Hplen & Hplaced); [fold cap; lia|].
    exists (with_players placed (with_map map s)).
    split.
    { unfold loadMap. fold map. rewrite Hvalid. simpl. fold cap roster.
      by rewrite Hplace. }
    split; [done|]. split; [done|]. exact Hplaced.
  - intros Hinvalid. unfold loadMap. fold map. by rewrite Hinvalid.
Qed.

End Eviction.

(** ** Connections *)

Section Connections.
Context {Map : Type} `{MapModel Map}.
Implicit Types (s : GameManager Map) (l : list Player).

Lemma renumber_lookup l i : renumber l !! i = setId (Z.of_nat i) <$> l !! i.
Proof. unfold renumber. by rewrite list_lookup_imap. Qed.

Lemma renumber_ids l i p : renumber l !! i = Some p → id p = Z.of_nat i.
Proof.
  rewrite renumber_lookup. destruct (l !! i); simpl; [|done]. by intros [= <-].
Qed.

Lemma renumber_keeps {B} (f : Player → B) l :
  (∀ v p, f (setId v p) = f p) → f <$> renumber l = f <$> l.
Proof.
  intros Hf. apply list_eq. intros i.
  rewrite !list_lookup_fmap, renumber_lookup.
  destruct (l !! i); simpl; by rewrite ?Hf.
Qed.

Lemma indexOf_Some a l index :
  indexOf a l = Some index → (ptr <$> l) !! index = Some a.
Proof.
  revert index. induction l as [|p l IH]; intros index; simpl; [done|].
  destruct (Nat.eqb_spec (ptr p) a) as [->|Hne].
  - by intros [= <-].
  - destruct (indexOf a l) as [k|]; simpl; [|done].
    intros [= <-]. by apply IH.
Qed.

(** C2, as the code has it.  While the tick timer runs, the disconnect
    slot returns at once: the manager is left as it is, no id changes,
    and nothing is kept for later, so that the roster after the round's
    end still holds the same players.  While the timer does not run, the
    disconnecting player is removed on the spot, the others keep their
    order, and the ids are renumbered 0..N-1 by roster position. *)
Theorem clientDisconnected_by_timer sender s :
  (m_timer s = true →
     clientDisconnected sender s = s
     ∧ ptr <$> m_players (endRound (clientDisconnected sender s)).1
       = ptr <$> m_players s)
  ∧ (m_timer s = false → ∀ a index,
       sender = Some a → indexOf a (m_players s) = Some index →
       let roster' := m_players (clientDisconnected sender s) in
       (ptr <$> m_players s) !! index = Some a
       ∧ ptr <$> roster' = delete index (ptr <$> m_players s)
       ∧ (∀ i p, roster' !! i = Some p → id p = Z.of_nat i)
       ∧ (NoDup (ptr <$> m_players s) → a ∉ ptr <$> roster')).
Proof.
  split.
  - intros Htimer. unfold clientDisconnected. rewrite Htimer.
    split; [done|]. by apply endRound_keeps.
  - intros Htimer a index -> Hindex roster'.
    assert (roster' = renumber (takeAt index (m_players s))) as ->.
    { unfold roster', clientDisconnected. by rewrite Htimer, Hindex. }
    pose proof (indexOf_Some _ _ _ Hindex) as Hat.
    assert (ptr <$> renumber (takeAt index (m_players s))
            = delete index (ptr <$> m_players s)) as Hptrs.
    { rewrite renumber_keeps by done. apply list_fmap_delete. }
    split; [done|]. split; [done|]. split; [apply renumber_ids|].
    intros Hnd. rewrite Hptrs, (delete_filter_NoDup _ _ _ Hnd Hat).
    rewrite list_elem_of_filter. tauto.
Qed.

Lemma addPlayer_Done client s :
  (length (m_players s) < length (startingPositions (m_map s)))%nat →
  ∃ sp, startingPositions (m_map s) !! length (m_players s) = Some sp
    ∧ addPlayer client s
      = Done (mkManager (m_map s)
                (m_players s ++
                   [mkPlayer (next_ptr s) (Z.of_nat (length (m_players s)))
                      (match client with
                       | None => "Local user"
                       | Some c => remoteName c
                       end) sp true "" 0 client])
                (m_roundsPlayed s) (m_timer s) (S (next_ptr s))).
Proof.
  intros Hroom. unfold addPlayer.
  destruct (Nat.leb_spec (length (startingPositions (m_map s))) (length (m_players s)));
    [lia|].
  simpl. rewrite Nat2Z.id.
  destruct (lookup_lt_is_Some_2 (startingPositions (m_map s)) (length (m_players s)))
    as [sp Hsp]; [done|].
  exists sp. rewrite Hsp. done.
Qed.

(** C7, as the code has it.  A connection request is refused, leaving the
    manager as it is and releasing the socket, when the roster holds as
    many players as the map has starting positions or the tick timer is
    running.  Otherwise, which includes a round whose timer was stopped
    by a pause, a player is appended to the roster with the channel, the
    next address, the roster length as id, the starting position of that
    id and the remote name. *)
Theorem clientConnect_by_capacity_and_timer c s :
  let cap := length (startingPositions (m_map s)) in
  let count := length (m_players s) in
  ((cap ≤ count)%nat ∨ m_timer s = true →
     clientConnect c s = Done (s, [socket_deleteLater (socket c)]))
  ∧ ((count < cap)%nat → m_timer s = false →
     ∃ sp, startingPositions (m_map s) !! count = Some sp
       ∧ clientConnect c s
         = Done (mkManager (m_map s)
                   (m_players s ++
                      [mkPlayer (next_ptr s) (Z.of_nat count) (remoteName c) sp
                         true "" 0 (Some c)])
                   (m_roundsPlayed s) false (S (next_ptr s)), [])).
Proof.
  intros cap count. split.
  - intros Hfull. unfold clientConnect. fold cap count.
    destruct Hfull as [Hfull| ->].
    + destruct (Nat.leb_spec cap count); [done|lia].
    + by rewrite orb_true_r.
  - intros Hroom Htimer. unfold clientConnect. fold cap count.
    destruct (Nat.leb_spec cap count); [lia|]. rewrite Htimer. simpl.
    destruct (addPlayer_Done (Some c) s Hroom) as (sp & Hsp & ->).
    exists sp. split; [done|]. by rewrite Htimer.
Qed.

(** *** startRound and players without a channel *)

Lemma revive_keeps {B} (f : Player → B) starts : ∀ l i l',
  (∀ p v b, f (setPosition v (setAlive b p)) = f p) →
  revive starts i l = Done l' → f <$> l' = f <$> l.
Proof.
  induction l as [|p l IH]; intros i l' Hf; simpl.
  - by intros [= <-].
  - destruct (starts !! i) as [sp|]; [|done].
    destruct (revive starts (S i) l) as [rest|] eqn:Hrest; simpl; [|done].
    intros [= <-]. csimpl. rewrite Hf. f_equal. by eapply IH.
Qed.

Lemma place_keeps {B} (f : Player → B) starts : ∀ l i l',
  (∀ p v k, f (setId k (setPosition v p)) = f p) →
  place starts i l = Done l' → f <$> l' = f <$> l.
Proof.
  induction l as [|p l IH]; intros i l' Hf; simpl.
  - by intros [= <-].
  - destruct (starts !! i) as [sp|]; [|done].
    destruct (place starts (S i) l) as [rest|] eqn:Hrest; simpl; [|done].
    intros [= <-]. csimpl. rewrite Hf. f_equal. by eapply IH.
Qed.

Lemma kick_keeps_local cap l p :
  p ∈ l → attached p = false → p ∈ kick cap (length l) l.
Proof.
  intros Hp Hlocal.
  destruct (kick_cut cap (length l) l) as (j & _ & ->); [done| |].
  { rewrite drop_all. constructor. }
  rewrite <- (take_drop j l) in Hp.
  apply elem_of_app in Hp as [Hp|Hp]; apply elem_of_app; [by left|right].
  apply list_elem_of_filter. split; [|done]. by rewrite Hlocal.
Qed.

Lemma lock_names_local l :
  false ∈ attached <$> l → ∃ a, lock_names l = Crash (NullChannel a).
Proof.
  induction l as [|p l IH]; intros Hb; [by apply elem_of_nil in Hb|].
  rewrite fmap_cons in Hb. apply elem_of_cons in Hb as [Hb|Hb]; simpl.
  - unfold attached in Hb. destruct (networkClient p); [done|by eexists].
  - destruct (networkClient p); [|by eexists].
    destruct (IH Hb) as [a ->]. by exists a.
Qed.

(** With a player without a channel in the roster, [startRound] never
    reaches [m_timer.start()]. *)
Lemma startRound_local_player s p :
  p ∈ m_players s → attached p = false → ∃ f, startRound s = Crash f.
Proof.
  intros Hp Hlocal. unfold startRound.
  destruct (m_players s) as [|p0 l0] eqn:Hroster; [by apply elem_of_nil in Hp|].
  rewrite <- Hroster in *. clear Hroster p0 l0.
  destruct (revive _ 0 (m_players s)) as [revived|f] eqn:Hrevive; [|by exists f].
  simpl.
  assert (false ∈ attached <$> revived) as Hin.
  { rewrite (revive_keeps attached _ _ _ _ ltac:(done) Hrevive).
    rewrite <- Hlocal. by apply list_elem_of_fmap_2. }
  unfold loadMap. simpl.
  destruct (isValid _); simpl.
  - destruct (place _ 0 _) as [placed|f] eqn:Hplace; [|by exists f]. simpl.
    destruct (lock_names_local placed) as [a ->]; [|by eexists].
    rewrite (place_keeps attached _ _ _ _ ltac:(done) Hplace).
    apply list_elem_of_fmap in Hin as (q & Hq & Hqin).
    rewrite Hq. apply list_elem_of_fmap_2, kick_keeps_local; done.
  - destruct (lock_names_local revived) as [a ->]; [done|by eexists].
Qed.

End Connections.

(** ** The roster invariant *)

Section Invariant.
Context {Map : Type} `{MapModel Map}.
Implicit Types (s : GameManager Map) (l : list Player).

Lemma ids_dense_lookup l i p : ids_dense l → l !! i = Some p → id p = Z.of_nat i.
Proof.
  intros Hdense Hp.
  assert ((id <$> l) !! i = Some (id p)) as Hid by by rewrite list_lookup_fmap, Hp.
  rewrite Hdense, list_lookup_fmap in Hid.
  rewrite lookup_seq_lt in Hid by by eapply lookup_lt_Some.
  by injection Hid as <-.
Qed.

Lemma renumber_dense l : ids_dense (renumber l).
Proof.
  unfold ids_dense. apply list_eq. intros i.
  rewrite !list_lookup_fmap, renumber_lookup.
  unfold renumber. rewrite length_imap.
  destruct (l !! i) as [p|] eqn:Hp; simpl.
  - rewrite lookup_seq_lt by by eapply lookup_lt_Some. done.
  - rewrite lookup_seq_ge; [done|]. by apply lookup_ge_None.
Qed.

Lemma place_dense starts : ∀ l i l',
  place starts i l = Done l' →
  length l' = length l ∧ id <$> l' = Z.of_nat <$> seq i (length l).
Proof.
  induction l as [|p l IH]; intros i l'; simpl.
  - by intros [= <-].
  - destruct (starts !! i) as [sp|]; [|done].
    destruct (place starts (S i) l) as [rest|] eqn:Hrest; simpl; [|done].
    intros [= <-]. destruct (IH _ _ Hrest) as [Hlen Hids].
    split; [simpl; lia|]. csimpl. by rewrite Hids.
Qed.

Lemma kick_sublist cap n : ∀ l, kick cap n l `sublist_of` l.
Proof.
  induction n as [|i IH]; intros l; simpl; [done|].
  destruct (length l <=? cap)%nat; [done|].
  destruct (l !! i) as [p|]; [|done].
  destruct (attached p); [|done].
  etrans; [apply IH|]. apply sublist_delete.
Qed.

Lemma take_first_human_sublist l : take_first_human l `sublist_of` l.
Proof.
  induction l as [|p l IH]; simpl; [done|].
  destruct (attached p); [by apply sublist_skip|by apply sublist_cons].
Qed.

(** A slot that keeps addresses and ids, and allocates nothing, keeps the
    invariant. *)
Lemma well_formed_keeps s s' :
  ptr <$> m_players s' = ptr <$> m_players s →
  id <$> m_players s' = id <$> m_players s →
  next_ptr s' = next_ptr s →
  well_formed s → well_formed s'.
Proof.
  intros Hptr Hid Hnext (Hnd & Hlt & Hdense). unfold well_formed, ids_dense.
  rewrite Hptr, Hid, Hnext.
  assert (length (m_players s') = length (m_players s)) as ->.
  { by rewrite <- (length_fmap ptr), Hptr, length_fmap. }
  done.
Qed.

(** A slot that removes players and assigns the ids anew keeps it too. *)
Lemma well_formed_removal s s' :
  ptr <$> m_players s' `sublist_of` ptr <$> m_players s →
  ids_dense (m_players s') →
  next_ptr s' = next_ptr s →
  well_formed s → well_formed s'.
Proof.
  intros Hsub Hdense Hnext (Hnd & Hlt & _). unfold well_formed.
  split; [by eapply sublist_NoDup|]. split; [|done].
  rewrite Hnext. rewrite Forall_forall in Hlt |- *.
  intros a Ha. apply Hlt. by eapply elem_of_sublist.
Qed.

Lemma endRound_well_formed s : well_formed s → well_formed (endRound s).1.
Proof.
  apply well_formed_keeps; try by apply endRound_keeps.
  unfold endRound. by destruct (_ <? 5).
Qed.

Lemma gameTick_well_formed rng s : well_formed s → well_formed (gameTick rng s).1.
Proof.
  intros Hwf.
  destruct (gameTick_cases rng s) as (roster & map & Hres & ->).
  assert (well_formed (with_players roster (with_map map s))) as Hmid.
  { pose proof (resolve_all_keeps ptr (tick_order rng s) (m_players s, m_map s)
                  ltac:(done)) as Hptr.
    pose proof (resolve_all_keeps id (tick_order rng s) (m_players s, m_map s)
                  ltac:(done)) as Hid.
    rewrite Hres in Hptr, Hid.
    revert Hwf. by apply well_formed_keeps. }
  destruct (_ && _); simpl; [by apply endRound_well_formed|done].
Qed.

Lemma addPlayer_well_formed client s s' :
  addPlayer client s = Done s' → well_formed s → well_formed s'.
Proof.
  intros Hadd (Hnd & Hlt & Hdense).
  destruct (decide (length (m_players s) < length (startingPositions (m_map s)))%nat)
    as [Hroom|Hfull].
  - destruct (addPlayer_Done client s Hroom) as (sp & _ & Heq).
    rewrite Heq in Hadd. injection Hadd as <-.
    unfold well_formed, ids_dense. simpl.
    rewrite !fmap_app, length_app, seq_app, fmap_app. simpl.
    split; [|split].
    + apply NoDup_app. split; [done|]. split; [|apply NoDup_singleton].
      intros a Ha ->%list_elem_of_singleton.
      rewrite Forall_forall in Hlt. specialize (Hlt _ Ha). lia.
    + apply Forall_app. split; [|by repeat constructor].
      eapply Forall_impl; [exact Hlt|]. simpl. lia.
    + by rewrite Hdense.
  - unfold addPlayer in Hadd.
    destruct (Nat.leb_spec (length (startingPositions (m_map s)))
                (length (m_players s))); [|lia].
    injection Hadd as <-. done.
Qed.

Lemma loadMap_well_formed path s s' :
  loadMap path s = Done s' → well_formed s → well_formed s'.
Proof.
  unfold loadMap. destruct (isValid _); simpl; [|by intros [= <-]].
  destruct (place _ 0 _) as [placed|] eqn:Hplace; simpl; [|done].
  intros [= <-]. apply well_formed_removal; simpl; [| |done].
  - rewrite (place_keeps ptr _ _ _ _ ltac:(done) Hplace).
    apply fmap_sublist, kick_sublist.
  - destruct (place_dense _ _ _ _ Hplace) as [Hlen Hids].
    unfold ids_dense. by rewrite Hids, Hlen.
Qed.

Lemma startRound_well_formed s s' sigs :
  startRound s = Done (s', sigs) → well_formed s → well_formed s'.
Proof.
  unfold startRound. destruct (m_players s) as [|p0 l0] eqn:Hroster.
  { by intros [= <- _]. }
  rewrite <- Hroster. clear Hroster p0 l0.
  destruct (revive _ 0 (m_players s)) as [revived|] eqn:Hrevive; simpl; [|done].
  destruct (loadMap _ _) as [s1|] eqn:Hload; simpl; [|done].
  destruct (lock_names _) as [names|]; simpl; [|done].
  intros [= <- _] Hwf.
  assert (well_formed s1) as Hs1.
  { apply (loadMap_well_formed _ _ _ Hload). revert Hwf.
    apply well_formed_keeps; simpl; [| |done].
    - by apply (revive_keeps ptr _ _ _ _ ltac:(done) Hrevive).
    - by apply (revive_keeps id _ _ _ _ ltac:(done) Hrevive). }
  revert Hs1. by apply well_formed_keeps.
Qed.

Lemma clientDisconnected_well_formed sender s :
  well_formed s → well_formed (clientDisconnected sender s).
Proof.
  unfold clientDisconnected. destruct (m_timer s); [done|].
  destruct sender as [a|]; [|done].
  destruct (indexOf a (m_players s)) as [index|]; [|done].
  apply well_formed_removal; simpl; [|apply renumber_dense|done].
  rewrite renumber_keeps by done. apply fmap_sublist, sublist_delete.
Qed.

Lemma step_well_formed e s s' sigs :
  step e s = Done (s', sigs) → well_formed s → well_formed s'.
Proof.
  destruct e; simpl.
  - destruct (addPlayer client s) as [s1|] eqn:Hadd; simpl; [|done].
    intros [= <- _]. by eapply addPlayer_well_formed.
  - unfold clientConnect. destruct (_ || _); [by intros [= <- _]|].
    destruct (addPlayer (Some c) s) as [s1|] eqn:Hadd; simpl; [|done].
    intros [= <- _]. by eapply addPlayer_well_formed.
  - intros [= <- _]. apply clientDisconnected_well_formed.
  - destruct (loadMap path s) as [s1|] eqn:Hload; simpl; [|done].
    intros [= <- _]. by eapply loadMap_well_formed.
  - apply startRound_well_formed.
  - destruct (m_timer s); [|by intros [= <- _]].
    intros [= Htick]. replace s' with (gameTick rng s).1 by by rewrite Htick.
    apply gameTick_well_formed.
  - intros [= <- _]. apply well_formed_keeps; simpl; [| |done].
    + rewrite <- list_fmap_compose. apply list_fmap_ext. intros _ p _. simpl.
      by destruct (QPoint_eqb _ _).
    + rewrite <- list_fmap_compose. apply list_fmap_ext. intros _ p _. simpl.
      by destruct (QPoint_eqb _ _).
  - intros [= <- _]. by apply well_formed_keeps.
  - unfold stopGame. destruct (endRound s) as [s1 sigs1] eqn:Hend.
    intros [= <- _] Hwf. apply endRound_well_formed in Hwf. rewrite Hend in Hwf.
    revert Hwf. by apply well_formed_keeps.
  - intros [= <- _]. apply well_formed_removal; simpl; [|apply renumber_dense|done].
    rewrite renumber_keeps by done. apply fmap_sublist, take_first_human_sublist.
  - intros [= <- _]. apply well_formed_keeps; simpl; [| |done];
      rewrite <- list_fmap_compose; apply list_fmap_ext; intros _ p _; simpl;
      by destruct (attached p).
  - intros [= <- _]. apply well_formed_keeps; simpl; [| |done];
      rewrite <- list_fmap_compose; apply list_fmap_ext; intros _ p _; simpl;
      by destruct (_ && _).
Qed.

(** Every state the manager reaches from its constructor has distinct
    players whose ids are their roster positions. *)
Lemma run_well_formed es : ∀ s s' sigs,
  run es s = Done (s', sigs) → well_formed s → well_formed s'.
Proof.
  induction es as [|e es IH]; intros s s' sigs; simpl.
  - by intros [= <- _].
  - destruct (step e s) as [[s1 sigs1]|] eqn:Hstep; simpl; [|done].
    destruct (run es s1) as [[s2 sigs2]|] eqn:Hrun; simpl; [|done].
    intros [= <- _] Hwf. eapply IH; [exact Hrun|]. by eapply step_well_formed.
Qed.

Lemma initial_well_formed (map : Map) : well_formed (initial map).
Proof. unfold well_formed, ids_dense. simpl. split; [constructor|]. by split. Qed.

End Invariant.

(** ** The manager on concrete rosters *)

(** The crossing in the order bob, alice: bob's move to (2,1) is committed
    first, so alice's move onto the same cell is rejected. *)
Lemma directional_move_resolution_witness :
  rejected [1; 0]%nat
    [remote 0 alice (mkPoint 1 1) true "RIGHT"; remote 1 bob (mkPoint 2 1) true "LEFT"]
    default_map (mkPoint 2 1)
  ∧ resolve_all [1; 0]%nat crossing
    = ([remote 0 alice (mkPoint 1 1) true "RIGHT"; remote 1 bob (mkPoint 2 1) true "LEFT"],
       default_map).
Proof.
  assert (rejected [1; 0]%nat
            [remote 0 alice (mkPoint 1 1) true "RIGHT";
             remote 1 bob (mkPoint 2 1) true "LEFT"]
            default_map (mkPoint 2 1)) as Hrej.
  { right; left. exists 1%nat, (remote 1 bob (mkPoint 2 1) true "LEFT").
    split; [by left|]. by vm_compute. }
  split; [exact Hrej|].
  destruct (directional_move_resolution [1; 0]%nat [1%nat] 0%nat [] crossing
              (remote 0 alice (mkPoint 1 1) true "RIGHT") (mkPoint 2 1))
    as (Hall & _ & Hkeep & _).
  - reflexivity.
  - vm_compute. reflexivity.
  - vm_compute. reflexivity.
  - etrans; [exact Hall|]. etrans; [apply Hkeep|].
    + right; left. exists 1%nat, (remote 1 bob (mkPoint 2 1) true "LEFT").
      split; [by left|]. by vm_compute.
    + vm_compute. reflexivity.
Defined.

(** A tick of the trio: alice and bob each receive the other; carol, who
    is dead, receives nothing and is listed nowhere. *)
Lemma snapshots_reach_alive_attached_witness :
  NoDup (ptr <$> m_players trio)
  ∧ (gameTick rng0 trio).2 = [sendState 0 [1%nat]; sendState 1 [0%nat]].
Proof.
  assert (NoDup (ptr <$> m_players trio)) as Hnd by compute_done.
  split; [exact Hnd|].
  destruct (snapshots_reach_alive_attached rng0 trio (gameTick rng0 trio).1
              (gameTick rng0 trio).2 Hnd) as (Hsigs & _).
  - by destruct (gameTick rng0 trio).
  - compute_done.
  - rewrite Hsigs. by vm_compute.
Defined.

(** The duel resolved with alice as the only survivor: one win for her. *)
Lemma endRound_awards_first_alive_witness :
  m_roundsPlayed duel_idle < 5
  ∧ wins <$> m_players (endRound duel_idle).1 = [1; 0].
Proof.
  assert (m_roundsPlayed duel_idle < 5) as Hrounds by (vm_compute; reflexivity).
  split; [exact Hrounds|].
  destruct (endRound_awards_first_alive duel_idle Hrounds)
    as [[Hdead _]|(i & p & Hp & Halive & Hfirst & -> & _)].
  - specialize (Hdead (remote 0 alice (mkPoint 1 1) true "")). simpl in Hdead.
    discriminate Hdead. by left.
  - destruct i as [|[|i]]; simpl in Hp.
    + by injection Hp as <-.
    + injection Hp as <-. discriminate Halive.
    + discriminate Hp.
Defined.

(** The full room moved to the two-player map: the local user stays, the
    two remote players of highest index leave. *)
Lemma loadMap_evicts_network_from_end_witness :
  isValid (Map_new "maps/duel.map" : Arena) = true
  ∧ ∃ s', loadMap "maps/duel.map" full_room = Done s'
      ∧ length (m_players s') = 2%nat
      ∧ filter (fun p => negb (attached p)) (m_players s')
        = [local_user 0 (mkPoint 1 1)].
Proof.
  split; [reflexivity|].
  destruct (loadMap_evicts_network_from_end "maps/duel.map" full_room)
    as (j & _ & _ & Hlen & _ & Hload & _).
  destruct Hload as (s' & Hload & _).
  - reflexivity.
  - rewrite Hlen. vm_compute. lia.
  - exists s'. split; [exact Hload|].
    vm_compute in Hload. injection Hload as <-. by vm_compute.
Defined.

(** Bob's disconnect: ignored while the duel runs, carried out between
    rounds. *)
Lemma clientDisconnected_by_timer_witness :
  clientDisconnected (Some 1%nat) duel_running = duel_running
  ∧ ptr <$> m_players (clientDisconnected (Some 1%nat) duel_idle) = [0%nat].
Proof.
  destruct (clientDisconnected_by_timer (Some 1%nat) duel_running) as [Hrun _].
  destruct (clientDisconnected_by_timer (Some 1%nat) duel_idle) as [_ Hidle].
  split.
  - apply Hrun. reflexivity.
  - destruct (Hidle eq_refl 1%nat 1%nat eq_refl eq_refl) as (_ & -> & _). reflexivity.
Defined.

(** Carol's connection: refused while the duel runs, accepted between
    rounds. *)
Lemma clientConnect_by_capacity_and_timer_witness :
  clientConnect carol duel_running = Done (duel_running, [socket_deleteLater 3])
  ∧ ∃ s', clientConnect carol duel_idle = Done (s', [])
      ∧ ptr <$> m_players s' = [0; 1; 2]%nat.
Proof.
  destruct (clientConnect_by_capacity_and_timer carol duel_running) as [Hrun _].
  destruct (clientConnect_by_capacity_and_timer carol duel_idle) as [_ Hidle].
  split.
  - apply Hrun. by right.
  - destruct Hidle as (sp & _ & Hconn).
    + vm_compute. lia.
    + reflexivity.
    + eexists. split; [exact Hconn|]. reflexivity.
Defined.

(** C1, the claim as stated fails.  A duel: bob is blown up, the next tick
    ends the round.  The timer is started again by the pause toggle before
    the next round begins; at the following tick nobody has died since the
    previous tick, one player is alive, and round-over is emitted again. *)
Lemma round_over_without_death :
  ∃ s_prev sigs_prev s' sigs',
    run (duel_setup ++ duel_round) (initial default_map) = Done (s_prev, sigs_prev)
    ∧ run [EvTogglePause; EvGameTick rng0] s_prev = Done (s', sigs')
    ∧ isAlive <$> m_players s_prev = [true; false]
    ∧ isAlive <$> m_players s' = [true; false]
    ∧ (gameOver ∈ sigs').
Proof.
  eexists _, _, _, _. split; [by vm_compute|]. split; [by vm_compute|].
  split; [done|]. split; [done|]. compute_done.
Qed.

(** C6, the claim as stated fails.  Three players, carol is blown up, the
    round goes on with two alive players: the order of the next tick still
    holds carol's index, so it is not a permutation of the alive players.
    And the index swapped with index 2 is not uniformly chosen: of the
    32768 values of a [qrand()] with [RAND_MAX] 32767, one more selects
    index 0 than index 2. *)
Lemma tick_order_includes_dead_player :
  (∃ s sigs,
     run [EvClientConnect alice; EvClientConnect bob; EvClientConnect carol;
          EvStartRound; EvExplosionAt (mkPoint 1 3); EvGameTick rng0]
       (initial default_map) = Done (s, sigs)
     ∧ m_timer s = true
     ∧ alive_indices (m_players s) = [0; 1]%nat
     ∧ (2%nat ∈ tick_order rng0 s)
     ∧ ¬ tick_order rng0 s ≡ₚ alive_indices (m_players s))
  ∧ hits (2 ^ 15) 3 0 = S (hits (2 ^ 15) 3 2).
Proof.
  split.
  - eexists _, _. split; [by vm_compute|]. split; [done|].
    split; [by vm_compute|]. split; [compute_done|].
    intros Hperm. apply Permutation_length in Hperm. vm_compute in Hperm. lia.
  - rewrite !hits_count by lia. by vm_compute.
Qed.

(** C2, the claim as stated fails.  Bob disconnects while the round runs;
    the round then ends, and bob is still in the roster. *)
Lemma disconnected_player_stays_after_round :
  ∃ s sigs,
    run (duel_setup ++
         [EvStartRound; EvClientDisconnected (Some 1%nat);
          EvExplosionAt (mkPoint 3 3); EvGameTick rng0])
      (initial default_map) = Done (s, sigs)
    ∧ (gameOver ∈ sigs)
    ∧ m_timer s = false
    ∧ ptr <$> m_players s = [0; 1]%nat.
Proof.
  eexists _, _. split; [by vm_compute|]. split; [compute_done|]. done.
Qed.

(** C7, the claim as stated fails.  A round is started and then paused;
    a connection request made during the pause is accepted. *)
Lemma paused_round_accepts_connection :
  ∃ s sigs s',
    run [EvClientConnect alice; EvStartRound; EvTogglePause] (initial default_map)
      = Done (s, sigs)
    ∧ clientConnect bob s = Done (s', [])
    ∧ ptr <$> m_players s' = [0; 1]%nat.
Proof.
  eexists _, _, _. split; [by vm_compute|]. split; [by vm_compute|]. done.
Qed.

(** C8, on the code.  The sixth round of a match is played with the round
    counter at 5.  The tick that resolves it finds alice alive and emits
    round-over, and no win counter changes: the survivor of a played round
    gets no win. *)
Lemma no_win_when_counter_is_five :
  ∃ s sigs,
    run (five_rounds ++ [EvStartRound; EvExplosionAt (mkPoint 3 3)])
      (initial default_map) = Done (s, sigs)
    ∧ m_timer s = true
    ∧ m_roundsPlayed s = 5
    ∧ isAlive <$> m_players s = [true; false]
    ∧ (gameOver ∈ (gameTick rng0 s).2)
    ∧ wins <$> m_players (gameTick rng0 s).1 = wins <$> m_players s.
Proof.
  eexists _, _. split; [by vm_compute|]. split; [done|]. split; [done|].
  split; [done|]. split; [compute_done|]. by vm_compute.
Qed.

(** C3, on the code.  After the fifth round resolution of a match the
    round counter is 5, the end screen has not been shown and a further
    [startRound] has been requested; the sixth round is played, and only
    its resolution shows the end screen and resets the counter, without
    a win for the survivor. *)
Theorem sixth_round_after_five_resolutions :
  ∃ s5 sigs5 s6 sigs6,
    run five_rounds (initial default_map) = Done (s5, sigs5)
    ∧ length (filter (fun g => g = gameOver) sigs5) = 5%nat
    ∧ m_roundsPlayed s5 = 5
    ∧ last sigs5 = Some singleShot_startRound
    ∧ (endScreen_opacity ∉ sigs5)
    ∧ run duel_round s5 = Done (s6, sigs6)
    ∧ last sigs6 = Some endScreen_opacity
    ∧ m_roundsPlayed s6 = 0
    ∧ wins <$> m_players s6 = wins <$> m_players s5.
Proof.
  eexists _, _, _, _. split; [by vm_compute|].
  split; [by vm_compute|]. split; [done|]. split; [done|].
  split; [compute_done|]. split; [by vm_compute|]. done.
Qed.

(** C10, on the code.  With the local user in the roster, [startRound]
    calls [disconnect] through the null [networkClient()] of that player
    and does not complete. *)
Theorem startRound_with_local_player :
  run [EvAddPlayer None; EvClientConnect alice; EvStartRound] (initial default_map)
  = Crash (NullChannel 0).
Proof. by vm_compute. Qed.

(** ** More on the tick *)

Section TickEffects.
Context {Map : Type} `{MapModel Map}.
Implicit Types (s : GameManager Map) (roster : list Player) (order : list nat).

Lemma gameTick_keeps {B} (f : Player → B) rng s :
  (∀ t p, f (setPosition t p) = f p) →
  (∀ p, f (addWin p) = f p) →
  f <$> m_players (gameTick rng s).1 = f <$> m_players s.
Proof.
  intros Hpos Hwin.
  destruct (gameTick_cases rng s) as (roster & map & Hres & ->).
  pose proof (resolve_all_keeps f (tick_order rng s) (m_players s, m_map s) Hpos) as Hf.
  rewrite Hres in Hf. simpl in Hf.
  destruct (_ && _); simpl; [|done].
  by rewrite endRound_keeps.
Qed.

(** X1. A tick changes nothing of a player but its position and, for the
    winner of a round it ends, the win counter: addresses, ids, names,
    alive flags, pending commands and channels are as before, and so is
    the size of the roster.  A tick that does not end the round leaves
    win counters, round counter and timer alone; one that ends it stops
    the timer. *)
Theorem gameTick_leaves_players rng s :
  let s' := (gameTick rng s).1 in
  ptr <$> m_players s' = ptr <$> m_players s
  ∧ id <$> m_players s' = id <$> m_players s
  ∧ name <$> m_players s' = name <$> m_players s
  ∧ isAlive <$> m_players s' = isAlive <$> m_players s
  ∧ command <$> m_players s' = command <$> m_players s
  ∧ networkClient <$> m_players s' = networkClient <$> m_players s
  ∧ length (m_players s') = length (m_players s)
  ∧ (gameOver ∉ (gameTick rng s).2 →
       wins <$> m_players s' = wins <$> m_players s
       ∧ m_roundsPlayed s' = m_roundsPlayed s ∧ m_timer s' = m_timer s)
  ∧ (gameOver ∈ (gameTick rng s).2 → m_timer s' = false).
Proof.
  intros s'. unfold s'.
  repeat (split; [by apply gameTick_keeps|]).
  split.
  { by rewrite <- (length_fmap ptr), gameTick_keeps, length_fmap. }
  destruct (gameTick_cases rng s) as (roster & map & Hres & ->).
  destruct (_ && _); simpl.
  - split; [intros Hno; exfalso; apply Hno; by left|].
    intros _. unfold endRound. by destruct (_ <? 5).
  - split.
    + intros _. split; [|done].
      pose proof (resolve_all_keeps wins (tick_order rng s) (m_players s, m_map s)
                    ltac:(done)) as Hw.
      by rewrite Hres in Hw.
    + intros Hin. by apply gameOver_not_broadcast in Hin.
Qed.

(** *** One cell per tick *)

Lemma one_step_refl p : one_step p p.
Proof. unfold one_step. lia. Qed.

Lemma decode_one_step cmd pos target : decode cmd pos = Move target → one_step pos target.
Proof.
  unfold decode, one_step, setX, setY.
  repeat (destruct (String.eqb cmd _)); intros [= <-]; simpl; lia.
Qed.

Lemma resolve_position order k st i p :
  st.1 !! i = Some p →
  ∃ p', (resolve order k st).1 !! i = Some p'
    ∧ (i ≠ k → p' = p)
    ∧ one_step (position p) (position p').
Proof.
  destruct st as [roster map]. simpl. intros Hp. unfold resolve.
  assert (∃ p', roster !! i = Some p' ∧ (i ≠ k → p' = p)
                ∧ one_step (position p) (position p')) as Hsame.
  { exists p. split; [done|]. split; [done|apply one_step_refl]. }
  destruct (roster !! k) as [pk|] eqn:Hk; [|done].
  destruct (String.eqb (command pk) ""); [done|].
  destruct (decode (command pk) (position pk)) as [target| |] eqn:Hdec; try done.
  destruct (can_walk order roster map target); [|done].
  simpl. unfold at_index.
  destruct (decide (i = k)) as [->|Hne].
  - rewrite list_lookup_alter_eq, Hk. simpl.
    exists (setPosition target pk). split; [done|]. split; [done|].
    rewrite Hk in Hp. injection Hp as <-. simpl. by eapply decode_one_step.
  - rewrite list_lookup_alter_ne by done. done.
Qed.

Lemma resolve_fold_position order : ∀ ks st i p,
  NoDup ks →
  st.1 !! i = Some p →
  ∃ p', (fold_left (fun st k => resolve order k st) ks st).1 !! i = Some p'
    ∧ one_step (position p) (position p').
Proof.
  induction ks as [|k ks IH]; intros st i p Hnd Hp; simpl.
  - exists p. split; [done|apply one_step_refl].
  - apply NoDup_cons in Hnd as [Hk Hnd].
    destruct (resolve_position order k st i p Hp) as (p1 & Hp1 & Hother & Hstep).
    destruct (decide (i = k)) as [->|Hne].
    + (* the player moves now and is not looked at again *)
      assert (∀ ks' st', k ∉ ks' → st'.1 !! k = Some p1 →
                (fold_left (fun st k => resolve order k st) ks' st').1 !! k = Some p1)
        as Hrest.
      { clear. induction ks' as [|k' ks' IH']; intros st' Hk' Hst'; simpl; [done|].
        apply not_elem_of_cons in Hk' as [Hne Hk'].
        apply IH'; [done|].
        destruct (resolve_position order k' st' k p1 Hst') as (p2 & Hp2 & Hsame & _).
        by rewrite Hp2, Hsame. }
      exists p1. split; [by apply Hrest|done].
    + rewrite (Hother Hne) in Hp1. by apply IH.
Qed.

(** X2. In one tick every player stays where it is or moves to a cell one
    step away along one axis: each player is resolved once, and a
    resolution moves by one cell at most. *)
Theorem gameTick_moves_one_cell rng s i p :
  m_players s !! i = Some p →
  ∃ p', m_players (gameTick rng s).1 !! i = Some p'
    ∧ one_step (position p) (position p').
Proof.
  intros Hp.
  assert (NoDup (tick_order rng s)) as Hnd.
  { rewrite tick_order_Permutation. apply NoDup_seq. }
  destruct (resolve_fold_position (tick_order rng s) (tick_order rng s)
              (m_players s, m_map s) i p Hnd Hp) as (p1 & Hp1 & Hstep).
  destruct (gameTick_cases rng s) as (roster & map & Hres & Hcases).
  unfold resolve_all in Hres. rewrite Hres in Hp1. simpl in Hp1.
  assert (position <$> m_players (gameTick rng s).1 = position <$> roster) as Hpos.
  { rewrite Hcases. destruct (_ && _); simpl; [|done]. by rewrite endRound_keeps. }
  assert ((position <$> m_players (gameTick rng s).1) !! i = Some (position p1)) as Hi
    by by rewrite Hpos, list_lookup_fmap, Hp1.
  rewrite list_lookup_fmap in Hi.
  destruct (m_players (gameTick rng s).1 !! i) as [p'|]; [|done].
  injection Hi as Hi. exists p'. split; [done|]. by rewrite Hi.
Qed.

End TickEffects.

(** ** Collisions and deaths *)

Section TickSafety.
Context {Map : Type} `{MapModel Map}.
Implicit Types (s : GameManager Map) (roster l : list Player) (order : list nat).

Lemma resolve_length order k st : length (resolve order k st).1 = length st.1.
Proof. by rewrite <- (length_fmap ptr), resolve_keeps, length_fmap. Qed.

Lemma resolve_apart order k st :
  (∀ j, (j < length st.1)%nat → j ∈ order) →
  alive_apart st.1 → alive_apart (resolve order k st).1.
Proof.
  destruct st as [roster map]. simpl. intros Hcover Hapart. unfold resolve.
  destruct (roster !! k) as [pk|] eqn:Hk; [|done].
  destruct (String.eqb (command pk) ""); [done|].
  destruct (decode (command pk) (position pk)) as [target| |]; try done.
  destruct (can_walk order roster map target) eqn:Hwalk; [|done].
  apply can_walk_true in Hwalk.
  assert (∀ j q, roster !! j = Some q → isAlive q = true → position q ≠ target) as Hfree.
  { intros j q Hq Ha Hpos. apply Hwalk. right; left. exists j, q.
    split; [|done]. apply Hcover. by eapply lookup_lt_Some. }
  simpl. unfold at_index. intros i j p q Hne Hp Hq Ha Hb.
  destruct (decide (i = k)) as [->|Hik]; [|destruct (decide (j = k)) as [->|Hjk]].
  - rewrite list_lookup_alter_eq, Hk in Hp. injection Hp as <-.
    rewrite list_lookup_alter_ne in Hq by done. simpl.
    intros Heq. by apply (Hfree j q).
  - rewrite list_lookup_alter_eq, Hk in Hq. injection Hq as <-.
    rewrite list_lookup_alter_ne in Hp by done. simpl.
    by apply (Hfree i p).
  - rewrite list_lookup_alter_ne in Hp, Hq by done.
    exact (Hapart i j p q Hne Hp Hq Ha Hb).
Qed.

Lemma resolve_fold_apart order : ∀ ks st,
  (∀ j, (j < length st.1)%nat → j ∈ order) →
  alive_apart st.1 →
  alive_apart (fold_left (fun st k => resolve order k st) ks st).1.
Proof.
  induction ks as [|k ks IH]; intros st Hcover Hapart; simpl; [done|].
  apply IH.
  - intros j. rewrite resolve_length. apply Hcover.
  - by apply resolve_apart.
Qed.

Lemma alive_apart_fields l l' :
  position <$> l' = position <$> l → isAlive <$> l' = isAlive <$> l →
  alive_apart l → alive_apart l'.
Proof.
  intros Hpos Hflag Hapart i j p' q' Hne Hp Hq Ha Hb.
  assert (∀ k r', l' !! k = Some r' →
            ∃ r, l !! k = Some r ∧ position r = position r' ∧ isAlive r = isAlive r')
    as Hback.
  { intros k r' Hr'.
    assert ((position <$> l) !! k = Some (position r')) as H1
      by by rewrite <- Hpos, list_lookup_fmap, Hr'.
    assert ((isAlive <$> l) !! k = Some (isAlive r')) as H2
      by by rewrite <- Hflag, list_lookup_fmap, Hr'.
    rewrite list_lookup_fmap in H1. rewrite list_lookup_fmap in H2.
    destruct (l !! k) as [r|]; [|done].
    injection H1 as H1. injection H2 as H2. by exists r. }
  destruct (Hback _ _ Hp) as (p & Hp0 & Hpp & Hpa).
  destruct (Hback _ _ Hq) as (q & Hq0 & Hqp & Hqa).
  rewrite <- Hpp, <- Hqp. eapply Hapart; eauto; congruence.
Qed.

(** X3. If no two alive players share a cell when a tick starts, no two
    alive players share a cell when it ends: a move onto the cell of an
    alive player, one that has just moved there included, is never
    committed. *)
Theorem gameTick_keeps_alive_apart rng s :
  alive_apart (m_players s) → alive_apart (m_players (gameTick rng s).1).
Proof.
  intros Hapart.
  pose proof (resolve_fold_apart (tick_order rng s) (tick_order rng s)
                (m_players s, m_map s)) as Hfold.
  destruct (gameTick_cases rng s) as (roster & map & Hres & ->).
  unfold resolve_all in Hres. rewrite Hres in Hfold. simpl in Hfold.
  assert (alive_apart roster) as Hroster.
  { apply Hfold; [|done]. intros j Hj.
    rewrite tick_order_Permutation. apply elem_of_seq. lia. }
  destruct (_ && _); simpl; [|done].
  revert Hroster. apply alive_apart_fields; by apply endRound_keeps.
Qed.

(** *** An explosion and the next tick *)

Lemma explosion_lookup pos s i :
  m_players (explosionAt pos s) !! i
  = (fun p => if QPoint_eqb (position p) pos then setAlive false p else p)
      <$> m_players s !! i.
Proof. unfold explosionAt. simpl. apply list_lookup_fmap. Qed.

Lemma one_alive l j b :
  l !! j = Some b → isAlive b = true → 1 ≤ alive_players l.
Proof.
  unfold alive_players. revert j. induction l as [|c l IH]; intros j Hb Ha; [done|].
  rewrite filter_cons. destruct j as [|j]; simpl in Hb.
  - injection Hb as ->. rewrite Ha. simpl. lia.
  - specialize (IH _ Hb Ha). destruct (isAlive c); simpl; lia.
Qed.

Lemma two_alive l i j a b :
  (i < j)%nat → l !! i = Some a → l !! j = Some b →
  isAlive a = true → isAlive b = true → 2 ≤ alive_players l.
Proof.
  revert i j. induction l as [|c l IH]; intros i j Hij Hi Hj Ha Hb; [done|].
  destruct j as [|j]; [lia|]. simpl in Hj.
  destruct i as [|i]; simpl in Hi.
  - injection Hi as ->. pose proof (one_alive _ _ _ Hj Hb) as Hone.
    unfold alive_players in *. rewrite filter_cons, Ha. simpl. lia.
  - assert (2 ≤ alive_players l) as Htwo by (eapply (IH i j); eauto; lia).
    unfold alive_players in *. rewrite filter_cons.
    destruct (isAlive c); simpl; lia.
Qed.

Lemma explosion_alive_le pos l :
  alive_players
    (map (fun p => if QPoint_eqb (position p) pos then setAlive false p else p) l)
  ≤ alive_players l.
Proof.
  unfold alive_players. induction l as [|c l IH]; simpl; [done|].
  rewrite !filter_cons.
  destruct (QPoint_eqb (position c) pos); destruct (isAlive c); simpl in *; lia.
Qed.

Lemma explosion_alive_lt pos l p :
  p ∈ l → isAlive p = true → position p = pos →
  alive_players
    (map (fun p => if QPoint_eqb (position p) pos then setAlive false p else p) l)
  < alive_players l.
Proof.
  intros Hin Ha Hpos. induction Hin as [p l|p c l Hin IH].
  - pose proof (explosion_alive_le pos l) as Hle.
    unfold alive_players in *. simpl. rewrite !filter_cons.
    rewrite (proj2 (QPoint_eqb_eq _ _) Hpos), Ha. simpl. lia.
  - specialize (IH Ha Hpos). unfold alive_players in *. simpl.
    rewrite !filter_cons.
    destruct (QPoint_eqb (position c) pos); destruct (isAlive c); simpl in *; lia.
Qed.

(** X4. When at most two players are alive and an explosion hits the cell
    of one of them, the next tick emits round-over and stops the timer;
    with the round counter below 5 the counter goes up by one, and an
    alive player standing elsewhere gets one more win. *)
Theorem explosion_then_tick_ends_round rng s p :
  p ∈ m_players s → isAlive p = true →
  alive_players (m_players s) ≤ 2 →
  let s' := (gameTick rng (explosionAt (position p) s)).1 in
  (gameOver ∈ (gameTick rng (explosionAt (position p) s)).2)
  ∧ m_timer s' = false
  ∧ (m_roundsPlayed s < 5 →
       m_roundsPlayed s' = m_roundsPlayed s + 1
       ∧ ∀ j q, m_players s !! j = Some q → isAlive q = true →
           position q ≠ position p →
           ∃ q', m_players s' !! j = Some q' ∧ wins q' = wins q + 1).
Proof.
  intros Hin Ha Hfew s'. unfold s'. clear s'.
  set (se := explosionAt (position p) s).
  pose proof (explosion_alive_lt (position p) (m_players s) p Hin Ha eq_refl) as Hlt.
  change (map _ (m_players s)) with (m_players se) in Hlt.
  pose proof (dead_plus_alive (m_players se)) as Hsum.
  assert (length (m_players se) = length (m_players s)) as Hlen
    by (unfold se, explosionAt; simpl; apply length_map).
  pose proof (dead_plus_alive (m_players s)) as Hsum0.
  assert (0 ≤ dead_players (m_players s)) as Hnn by (unfold dead_players; lia).
  destruct (gameTick_cases rng se) as (roster & map & Hres & ->).
  pose proof (resolve_all_keeps isAlive (tick_order rng se) (m_players se, m_map se)
                ltac:(done)) as Hflags.
  pose proof (resolve_all_keeps wins (tick_order rng se) (m_players se, m_map se)
                ltac:(done)) as Hwins.
  rewrite Hres in Hflags, Hwins.
  change (isAlive <$> roster = isAlive <$> m_players se) in Hflags.
  change (wins <$> roster = wins <$> m_players se) in Hwins.
  assert ((0 <? dead_players (m_players se))
          && (Z.of_nat (length (m_players se)) - dead_players (m_players se) <? 2)
          = true) as ->.
  { apply andb_true_iff. split; [apply Z.ltb_lt|apply Z.ltb_lt]; lia. }
  simpl. split; [by left|]. unfold endRound. simpl.
  split; [by destruct (_ <? 5)|].
  intros Hrounds. destruct (Z.ltb_spec (m_roundsPlayed s) 5); [|lia]. simpl.
  split; [done|]. intros j q Hq Hqa Hqp.
  (* q survives the explosion and is the only alive player of the tick *)
  assert (m_players se !! j = Some q) as Hqe.
  { etrans; [apply explosion_lookup|]. rewrite Hq. simpl.
    destruct (QPoint_eqb (position q) (position p)) eqn:Heq; [|done].
    by apply QPoint_eqb_eq in Heq. }
  assert (∃ r, roster !! j = Some r ∧ isAlive r = true ∧ wins r = wins q)
    as (r & Hr & Hra & Hrw).
  { assert ((isAlive <$> roster) !! j = Some true) as H1
      by by rewrite Hflags, list_lookup_fmap, Hqe, <- Hqa.
    assert ((wins <$> roster) !! j = Some (wins q)) as H2
      by by rewrite Hwins, list_lookup_fmap, Hqe.
    rewrite list_lookup_fmap in H1. rewrite list_lookup_fmap in H2.
    destruct (roster !! j) as [r|]; [|done].
    injection H1 as H1. injection H2 as H2. by exists r. }
  assert (alive_players roster ≤ 1) as Hone.
  { assert (alive_players roster = alive_players (m_players se)) as ->; [|lia].
    pose proof (dead_plus_alive roster) as Hs1.
    rewrite (dead_players_flags _ _ Hflags) in Hs1.
    assert (length roster = length (m_players se))
      by by rewrite <- (length_fmap isAlive), Hflags, length_fmap.
    lia. }
  destruct (award_first_alive_cases roster) as [[Hdead _]|(i & w & Hw & Hwa & _ & ->)].
  { rewrite Forall_forall in Hdead.
    specialize (Hdead r (list_elem_of_lookup_2 _ _ _ Hr)). congruence. }
  assert (i = j) as ->.
  { destruct (Nat.lt_trichotomy i j) as [Hij|[Hij|Hij]]; [|done|].
    - pose proof (two_alive _ _ _ _ _ Hij Hw Hr Hwa Hra). lia.
    - pose proof (two_alive _ _ _ _ _ Hij Hr Hw Hra Hwa). lia. }
  rewrite Hr in Hw. injection Hw as <-.
  exists (addWin r). split.
  - apply list_lookup_insert_eq. by eapply lookup_lt_Some.
  - simpl. by rewrite Hrw.
Qed.

End TickSafety.

(** ** What every run keeps *)

Section RunInvariants.
Context {Map : Type} `{MapModel Map}.
Implicit Types (s : GameManager Map) (l : list Player).

Lemma run_invariant (P : GameManager Map → Prop) :
  (∀ e s s' sigs, step e s = Done (s', sigs) → P s → P s') →
  ∀ es s s' sigs, run es s = Done (s', sigs) → P s → P s'.
Proof.
  intros Hstep. induction es as [|e es IH]; intros s s' sigs; simpl.
  - by intros [= <- _].
  - destruct (step e s) as [[s1 sigs1]|] eqn:He; simpl; [|done].
    destruct (run es s1) as [[s2 sigs2]|] eqn:Hrun; simpl; [|done].
    intros [= <- _] HP. eapply IH; [exact Hrun|]. by eapply Hstep.
Qed.

Lemma startRound_setup_well_formed s s1 b :
  well_formed s → startRound_setup s = Done s1 → well_formed (with_timer b s1).
Proof.
  intros Hwf. unfold startRound_setup.
  destruct (revive _ 0 (m_players s)) as [revived|] eqn:Hrevive; simpl; [|done].
  intros Hload.
  assert (well_formed s1) as Hs1.
  { apply (loadMap_well_formed _ _ _ Hload). revert Hwf.
    apply well_formed_keeps; simpl; [| |done].
    - by apply (revive_keeps ptr _ _ _ _ ltac:(done) Hrevive).
    - by apply (revive_keeps id _ _ _ _ ltac:(done) Hrevive). }
  revert Hs1. by apply well_formed_keeps.
Qed.

(** X5. That the players of the roster are distinct objects and that the
    id of each player is its position in the roster holds after the
    constructor and is kept by every slot call that completes, from any
    state with any pending commands and any mix of local and network
    players; [startRound] has it when it reaches its name-lock loop,
    whatever becomes of the calls made there.  Hence in every state of a
    run each id is the roster position, a number below the player
    count. *)
Theorem slots_keep_roster_dense (map : Map) :
  well_formed (initial map)
  ∧ (∀ e s s' sigs, well_formed s → step e s = Done (s', sigs) → well_formed s')
  ∧ (∀ s s1 b, well_formed s → startRound_setup s = Done s1 →
       well_formed (with_timer b s1))
  ∧ (∀ es s sigs, run es (initial map) = Done (s, sigs) →
       NoDup (ptr <$> m_players s)
       ∧ ∀ i p, m_players s !! i = Some p →
           id p = Z.of_nat i ∧ 0 ≤ id p < Z.of_nat (length (m_players s))).
Proof.
  split; [apply initial_well_formed|].
  split; [intros e s s' sigs Hwf Hstep; by eapply step_well_formed|].
  split; [intros s s1 b; apply startRound_setup_well_formed|].
  intros es s sigs Hrun.
  destruct (run_well_formed _ _ _ _ Hrun (initial_well_formed map)) as (Hnd & _ & Hdense).
  split; [done|]. intros i p Hp.
  pose proof (ids_dense_lookup _ _ _ Hdense Hp) as Hid.
  pose proof (lookup_lt_Some _ _ _ Hp). lia.
Qed.

(** *** The round counter *)

Lemma endRound_rounds s :
  0 ≤ m_roundsPlayed s ≤ 5 → 0 ≤ m_roundsPlayed (endRound s).1 ≤ 5.
Proof.
  unfold endRound. simpl. destruct (Z.ltb_spec (m_roundsPlayed s) 5); simpl; lia.
Qed.

Lemma loadMap_rounds path s s' :
  loadMap path s = Done s' →
  m_roundsPlayed s' = m_roundsPlayed s ∧ m_timer s' = m_timer s
  ∧ next_ptr s' = next_ptr s.
Proof.
  unfold loadMap. destruct (isValid _); simpl; [|by intros [= <-]].
  destruct (place _ _ _); simpl; [|done]. by intros [= <-].
Qed.

Lemma addPlayer_rounds client s s' :
  addPlayer client s = Done s' →
  m_roundsPlayed s' = m_roundsPlayed s ∧ m_timer s' = m_timer s ∧ m_map s' = m_map s.
Proof.
  unfold addPlayer. destruct (_ <=? _)%nat; [by intros [= <-]|].
  destruct (_ !! _); [|done]. by intros [= <-].
Qed.

Lemma startRound_rounds s s' sigs :
  startRound s = Done (s', sigs) → m_roundsPlayed s' = m_roundsPlayed s.
Proof.
  unfold startRound. destruct (m_players s); [by intros [= <- _]|].
  destruct (revive _ _ _); simpl; [|done].
  destruct (loadMap _ _) as [s1|] eqn:Hload; simpl; [|done].
  destruct (lock_names _); simpl; [|done].
  intros [= <- _]. destruct (loadMap_rounds _ _ _ Hload) as (Hr & _).
  simpl. by rewrite Hr.
Qed.

Lemma gameTick_rounds rng s :
  0 ≤ m_roundsPlayed s ≤ 5 → 0 ≤ m_roundsPlayed (gameTick rng s).1 ≤ 5.
Proof.
  intros Hr. destruct (gameTick_cases rng s) as (roster & map & _ & ->).
  destruct (_ && _); simpl; [|done].
  by apply (endRound_rounds (with_players roster (with_map map s))).
Qed.

Lemma step_round_counter e s s' sigs :
  0 ≤ m_roundsPlayed s ≤ 5 → step e s = Done (s', sigs) →
  0 ≤ m_roundsPlayed s' ≤ 5.
Proof.
  intros Hr Hstep. destruct e; simpl in Hstep.
  - destruct (addPlayer client s) as [s1|] eqn:Hadd; simpl in Hstep; [|done].
    injection Hstep as <- _. by destruct (addPlayer_rounds _ _ _ Hadd) as (-> & _).
  - unfold clientConnect in Hstep. destruct (_ || _); [by injection Hstep as <- _|].
    destruct (addPlayer (Some c) s) as [s1|] eqn:Hadd; simpl in Hstep; [|done].
    injection Hstep as <- _. by destruct (addPlayer_rounds _ _ _ Hadd) as (-> & _).
  - injection Hstep as <- _. unfold clientDisconnected.
    destruct (m_timer s); [done|]. destruct sender; [|done].
    by destruct (indexOf _ _).
  - destruct (loadMap path s) as [s1|] eqn:Hload; simpl in Hstep; [|done].
    injection Hstep as <- _. by destruct (loadMap_rounds _ _ _ Hload) as (-> & _).
  - by rewrite (startRound_rounds _ _ _ Hstep).
  - destruct (m_timer s); [|by injection Hstep as <- _].
    injection Hstep as Hstep. replace s' with (gameTick rng s).1 by by rewrite Hstep.
    by apply gameTick_rounds.
  - by injection Hstep as <- _.
  - by injection Hstep as <- _.
  - unfold stopGame in Hstep. destruct (endRound s).
    injection Hstep as <- _. simpl. lia.
  - by injection Hstep as <- _.
  - by injection Hstep as <- _.
  - by injection Hstep as <- _.
Qed.

(** X6. The round counter is 0 after the constructor and stays between 0
    and 5 under every slot call that completes, from any state:
    [endRound] raises it only while it is below 5, and [endRound] at 5
    and [stopGame] put it back to 0; the part of [startRound] before its
    name-lock loop does not touch it.  Hence it lies between 0 and 5 in
    every state of a run. *)
Theorem slots_keep_round_counter (map : Map) :
  m_roundsPlayed (initial map) = 0
  ∧ (∀ e s s' sigs, 0 ≤ m_roundsPlayed s ≤ 5 → step e s = Done (s', sigs) →
       0 ≤ m_roundsPlayed s' ≤ 5)
  ∧ (∀ s s1, startRound_setup s = Done s1 → m_roundsPlayed s1 = m_roundsPlayed s)
  ∧ (∀ es s sigs, run es (initial map) = Done (s, sigs) → 0 ≤ m_roundsPlayed s ≤ 5).
Proof.
  split; [done|]. split; [apply step_round_counter|]. split.
  - intros s s1. unfold startRound_setup.
    destruct (revive _ _ _); simpl; [|done].
    intros Hload. by destruct (loadMap_rounds _ _ _ Hload) as (-> & _).
  - intros es s sigs Hrun.
    refine (run_invariant (fun s => 0 ≤ m_roundsPlayed s ≤ 5) _ _ _ _ _ Hrun _);
      [|simpl; lia].
    intros e s0 s' sigs' Hstep Hr. by eapply step_round_counter.
Qed.

(** *** Room for every player *)

Lemma place_Done_inv starts : ∀ l i l',
  place starts i l = Done l' →
  length l' = length l ∧ (l ≠ [] → (i + length l ≤ length starts)%nat).
Proof.
  induction l as [|p l IH]; intros i l'; simpl.
  - by intros [= <-].
  - destruct (starts !! i) as [sp|] eqn:Hsp; [|done].
    destruct (place starts (S i) l) as [rest|] eqn:Hrest; simpl; [|done].
    intros [= <-]. destruct (IH _ _ Hrest) as [Hlen Hfit].
    split; [simpl; lia|]. intros _.
    pose proof (lookup_lt_Some _ _ _ Hsp).
    destruct l as [|q l]; [simpl; lia|].
    specialize (Hfit ltac:(done)). simpl in *. lia.
Qed.

Lemma loadMap_has_room path s s' :
  loadMap path s = Done s' → has_room s → has_room s'.
Proof.
  unfold loadMap, has_room. destruct (isValid _); simpl; [|by intros [= <-]].
  destruct (place _ 0 _) as [placed|] eqn:Hplace; simpl; [|done].
  intros [= <-] _. simpl.
  destruct (place_Done_inv _ _ _ _ Hplace) as [Hlen Hfit]. rewrite Hlen.
  destruct (kick _ _ _) as [|q l]; [simpl; lia|].
  by apply (Hfit ltac:(done)).
Qed.

Lemma resolve_all_starts order (st : list Player * Map) :
  (∀ m p a, startingPositions (addBomb m p a) = startingPositions m) →
  startingPositions (resolve_all order st).2 = startingPositions st.2.
Proof.
  intros Hbomb. unfold resolve_all.
  assert (∀ ks st', startingPositions
                      (fold_left (fun st k => resolve order k st) ks st').2
                    = startingPositions st'.2) as Hfold; [|apply Hfold].
  induction ks as [|k ks IH]; intros st'; simpl; [done|].
  rewrite IH. destruct st' as [roster map]. unfold resolve.
  destruct (roster !! k) as [p|]; [|done].
  destruct (String.eqb (command p) ""); [done|].
  destruct (decode _ _) as [target| |]; simpl; [|by rewrite Hbomb|done].
  by destruct (can_walk _ _ _ _).
Qed.

Lemma startRound_setup_has_room s s1 :
  has_room s → startRound_setup s = Done s1 → has_room s1.
Proof.
  intros Hroom. unfold startRound_setup.
  destruct (revive _ _ _) as [revived|] eqn:Hrevive; simpl; [|done].
  intros Hload. apply (loadMap_has_room _ _ _ Hload). unfold has_room in *. simpl.
  enough (length revived = length (m_players s)) as -> by done.
  rewrite <- (length_fmap ptr revived), <- (length_fmap ptr (m_players s)).
  f_equal. by eapply revive_keeps.
Qed.

Lemma step_has_room e s s' sigs :
  (∀ m p a, startingPositions (addBomb m p a) = startingPositions m) →
  has_room s → step e s = Done (s', sigs) → has_room s'.
Proof.
  intros Hbomb Hroom Hstep.
  assert (∀ client s1, addPlayer client s = Done s1 → has_room s1) as Hadd.
  { intros client s1 Hs1.
    destruct (decide (length (m_players s) < length (startingPositions (m_map s)))%nat)
      as [Hlt|Hge].
    - destruct (addPlayer_Done client s Hlt) as (sp & _ & Heq).
      rewrite Heq in Hs1. injection Hs1 as <-.
      unfold has_room. simpl. rewrite length_app. simpl. lia.
    - unfold addPlayer in Hs1.
      destruct (Nat.leb_spec (length (startingPositions (m_map s)))
                  (length (m_players s))); [|lia].
      by injection Hs1 as <-. }
  destruct e; simpl in Hstep.
  - destruct (addPlayer client s) as [s1|] eqn:Hs1; simpl in Hstep; [|done].
    injection Hstep as <- _. by eapply Hadd.
  - unfold clientConnect in Hstep. destruct (_ || _); [by injection Hstep as <- _|].
    destruct (addPlayer (Some c) s) as [s1|] eqn:Hs1; simpl in Hstep; [|done].
    injection Hstep as <- _. by eapply Hadd.
  - injection Hstep as <- _. unfold clientDisconnected.
    destruct (m_timer s); [done|]. destruct sender as [a|]; [|done].
    destruct (indexOf a (m_players s)) as [index|]; [|done].
    unfold has_room in *. simpl. unfold renumber, takeAt.
    rewrite length_imap.
    pose proof (sublist_length _ _ (sublist_delete (m_players s) index)). lia.
  - destruct (loadMap path s) as [s1|] eqn:Hload; simpl in Hstep; [|done].
    injection Hstep as <- _. by eapply loadMap_has_room.
  - unfold startRound in Hstep. destruct (m_players s) eqn:Hroster.
    { injection Hstep as <- _. unfold has_room. rewrite Hroster. simpl. lia. }
    destruct (revive _ _ _) as [revived|] eqn:Hrevive; simpl in Hstep; [|done].
    destruct (loadMap _ _) as [s1|] eqn:Hload; simpl in Hstep; [|done].
    destruct (lock_names _); simpl in Hstep; [|done].
    injection Hstep as <- _.
    unfold loadMap in Hload. simpl in Hload.
    destruct (isValid _) eqn:Hvalid; simpl in Hload.
    + destruct (place _ 0 _) as [placed|] eqn:Hplace; simpl in Hload; [|done].
      injection Hload as <-. unfold has_room. simpl.
      destruct (place_Done_inv _ _ _ _ Hplace) as [Hlen Hfit]. rewrite Hlen.
      destruct (kick _ _ _) as [|q l0]; [simpl; lia|].
      by apply (Hfit ltac:(done)).
    + (* the reload failed: the revive loop has already run on the old map *)
      injection Hload as <-. unfold has_room in *. simpl.
      rewrite Hroster in Hroom.
      enough (length revived = length (p :: l)) as -> by done.
      rewrite <- (length_fmap ptr revived), <- (length_fmap ptr (p :: l)).
      f_equal. by eapply revive_keeps.
  - destruct (m_timer s); [|by injection Hstep as <- _].
    injection Hstep as Hstep. replace s' with (gameTick rng s).1 by by rewrite Hstep.
    destruct (gameTick_cases rng s) as (roster & map' & Hres & ->).
    pose proof (resolve_all_starts (tick_order rng s) (m_players s, m_map s) Hbomb)
      as Hstarts.
    pose proof (resolve_all_keeps ptr (tick_order rng s) (m_players s, m_map s)
                  ltac:(done)) as Hptr.
    rewrite Hres in Hstarts, Hptr. simpl in Hstarts, Hptr.
    assert (length roster = length (m_players s)) as Hlen
      by by rewrite <- (length_fmap ptr), Hptr, length_fmap.
    unfold has_room in *.
    destruct (_ && _); simpl.
    + rewrite <- (length_fmap ptr), endRound_keeps, length_fmap by done.
      unfold endRound. simpl. destruct (_ <? 5); simpl; rewrite Hstarts; lia.
    + rewrite Hstarts. lia.
  - injection Hstep as <- _. unfold has_room in *. simpl. by rewrite length_map.
  - by injection Hstep as <- _.
  - unfold stopGame in Hstep. destruct (endRound s) as [s1 sigs1] eqn:Hend.
    injection Hstep as <- _. unfold has_room in *. simpl.
    replace s1 with (endRound s).1 by by rewrite Hend.
    rewrite <- (length_fmap ptr), endRound_keeps, length_fmap by done.
    unfold endRound. simpl. by destruct (_ <? 5).
  - injection Hstep as <- _. unfold has_room in *. simpl.
    unfold renumber. rewrite length_imap.
    pose proof (sublist_length _ _ (take_first_human_sublist (m_players s))). lia.
  - injection Hstep as <- _. unfold has_room in *. simpl. by rewrite length_map.
  - injection Hstep as <- _. unfold has_room in *. simpl. by rewrite length_map.
Qed.

(** X7. When placing a bomb leaves the starting positions of the map as
    they are, the roster never outgrows the map: that the map has a
    starting position for each player holds after the constructor and is
    kept by every slot call that completes, from any state, ticks that
    place bombs included, and by the part of [startRound] before its
    name-lock loop.  Hence it holds in every state of a run. *)
Theorem slots_keep_room (map : Map) :
  (∀ m p a, startingPositions (addBomb m p a) = startingPositions m) →
  has_room (initial map)
  ∧ (∀ e s s' sigs, has_room s → step e s = Done (s', sigs) → has_room s')
  ∧ (∀ s s1, has_room s → startRound_setup s = Done s1 → has_room s1)
  ∧ (∀ es s sigs, run es (initial map) = Done (s, sigs) → has_room s).
Proof.
  intros Hbomb.
  assert (has_room (initial map)) as Hinit by (unfold has_room; simpl; lia).
  split; [done|].
  split; [intros e s s' sigs Hroom Hstep; by eapply step_has_room|].
  split; [apply startRound_setup_has_room|].
  intros es s sigs Hrun.
  refine (run_invariant has_room _ _ _ _ _ Hrun Hinit).
  intros e s0 s' sigs' Hstep Hroom. by eapply step_has_room.
Qed.

End RunInvariants.

(** ** Roster changes *)

Section RosterChanges.
Context {Map : Type} `{MapModel Map}.
Implicit Types (s : GameManager Map) (l : list Player).

(** X8. [addPlayer] never reads past the starting positions: it always
    completes.  In a full room it leaves the manager as it is; otherwise
    it appends one player, built with the roster length as id and the
    given channel, placed on the starting position of that id and named
    after the channel ("Local user" without one), and touches nothing
    else: map, timer, round counter and the players already there. *)
Theorem addPlayer_always_completes client s :
  ∃ s', addPlayer client s = Done s'
    ∧ m_map s' = m_map s ∧ m_roundsPlayed s' = m_roundsPlayed s
    ∧ m_timer s' = m_timer s
    ∧ ((length (startingPositions (m_map s)) ≤ length (m_players s))%nat → s' = s)
    ∧ ((length (m_players s) < length (startingPositions (m_map s)))%nat →
       ∃ p, m_players s' = m_players s ++ [p]
         ∧ ptr p = next_ptr s ∧ next_ptr s' = S (next_ptr s)
         ∧ id p = Z.of_nat (length (m_players s))
         ∧ startingPositions (m_map s) !! length (m_players s) = Some (position p)
         ∧ networkClient p = client
         ∧ name p = match client with
                    | None => "Local user"
                    | Some c => remoteName c
                    end).
Proof.
  destruct (decide (length (m_players s) < length (startingPositions (m_map s)))%nat)
    as [Hroom|Hfull].
  - destruct (addPlayer_Done client s Hroom) as (sp & Hsp & Heq).
    eexists. split; [exact Heq|]. simpl. repeat (split; [done|]).
    split; [lia|]. intros _. eexists. split; [done|]. simpl. by rewrite Hsp.
  - exists s. unfold addPlayer.
    destruct (Nat.leb_spec (length (startingPositions (m_map s)))
                (length (m_players s))); [|lia].
    repeat (split; [done|]). intros ?. lia.
Qed.

(** *** removeHumanPlayers *)

Lemma take_first_human_attached l :
  filter (fun p => attached p) (take_first_human l) = filter (fun p => attached p) l.
Proof.
  induction l as [|p l IH]; simpl; [done|].
  destruct (attached p) eqn:Hatt.
  - rewrite filter_cons_True by (by rewrite Hatt).
    rewrite filter_cons_True by (by rewrite Hatt). by rewrite IH.
  - rewrite filter_cons_False; [done|]. rewrite Hatt. simpl. tauto.
Qed.

Lemma take_first_human_local l :
  filter (fun p => negb (attached p)) (take_first_human l)
  = tail (filter (fun p => negb (attached p)) l).
Proof.
  induction l as [|p l IH]; simpl; [done|].
  destruct (attached p) eqn:Hatt.
  - rewrite filter_cons_False by (rewrite Hatt; simpl; tauto).
    rewrite filter_cons_False by (rewrite Hatt; simpl; tauto). by rewrite IH.
  - rewrite filter_cons_True; [done|]. by rewrite Hatt.
Qed.

(** X9. [removeHumanPlayers] removes the first player without a channel
    and no other: every network player stays, in order, further local
    players stay too, and a roster without local player loses nobody.
    The ids of the remaining players are their new roster positions. *)
Theorem removeHumanPlayers_removes_first_local s :
  ∃ kept,
    m_players (removeHumanPlayers s) = renumber kept
    ∧ kept `sublist_of` m_players s
    ∧ filter (fun p => attached p) kept = filter (fun p => attached p) (m_players s)
    ∧ filter (fun p => negb (attached p)) kept
      = tail (filter (fun p => negb (attached p)) (m_players s))
    ∧ (Forall (fun p => attached p = true) (m_players s) → kept = m_players s)
    ∧ ∀ i p, m_players (removeHumanPlayers s) !! i = Some p → id p = Z.of_nat i.
Proof.
  exists (take_first_human (m_players s)).
  split; [done|]. split; [apply take_first_human_sublist|].
  split; [apply take_first_human_attached|].
  split; [apply take_first_human_local|].
  split; [|intros i p; apply renumber_ids].
  induction 1 as [|p l Hp Hl IH]; simpl; [done|]. by rewrite Hp, IH.
Qed.

Lemma renumber_dense_id l : ids_dense l → renumber l = l.
Proof.
  intros Hdense. apply list_eq. intros i. rewrite renumber_lookup.
  destruct (l !! i) as [p|] eqn:Hp; simpl; [|done].
  rewrite <- (ids_dense_lookup _ _ _ Hdense Hp). by destruct p.
Qed.

Lemma take_first_human_snoc l p :
  Forall (fun q => attached q = true) l → attached p = false →
  take_first_human (l ++ [p]) = l.
Proof.
  intros Hl Hp. induction Hl as [|q l Hq Hl IH]; simpl.
  - by rewrite Hp.
  - by rewrite Hq, IH.
Qed.

(** X10. Adding the local user to a roster of network players that has
    room and dense ids, and then removing the human players, gives back
    the roster as it was. *)
Theorem addPlayer_removeHumanPlayers s s' :
  ids_dense (m_players s) →
  Forall (fun p => attached p = true) (m_players s) →
  addPlayer None s = Done s' →
  m_players (removeHumanPlayers s') = m_players s.
Proof.
  intros Hdense Hnet Hadd.
  destruct (decide (length (m_players s) < length (startingPositions (m_map s)))%nat)
    as [Hroom|Hfull].
  - destruct (addPlayer_Done None s Hroom) as (sp & _ & Heq).
    rewrite Heq in Hadd. injection Hadd as <-.
    unfold removeHumanPlayers. simpl.
    rewrite take_first_human_snoc by done. by apply renumber_dense_id.
  - unfold addPlayer in Hadd.
    destruct (Nat.leb_spec (length (startingPositions (m_map s)))
                (length (m_players s))); [|lia].
    injection Hadd as <-. unfold removeHumanPlayers. simpl.
    replace (take_first_human (m_players s)) with (m_players s).
    + by apply renumber_dense_id.
    + clear -Hnet. induction Hnet as [|q l Hq Hl IH]; simpl; [done|].
      by rewrite Hq, <- IH.
Qed.

(** *** Disconnects from unknown senders *)

Lemma indexOf_None a l : indexOf a l = None ↔ a ∉ ptr <$> l.
Proof.
  induction l as [|p l IH]; simpl.
  - split; [|done]. intros _ Hin. by apply elem_of_nil in Hin.
  - rewrite ?fmap_cons, not_elem_of_cons.
    destruct (Nat.eqb_spec (ptr p) a) as [->|Hne].
    + split; [done|]. by intros [? _].
    + destruct (indexOf a l); simpl.
      * split; [done|]. intros [_ Hno]. by apply IH in Hno.
      * split; [|done]. intros _. split; [done|]. by apply IH.
Qed.

(** X11. A disconnect signal whose sender is not a player, or is a player
    that the roster does not hold, changes nothing, whether the timer runs
    or not. *)
Theorem clientDisconnected_unknown_sender sender s :
  (∀ a, sender = Some a → a ∉ ptr <$> m_players s) →
  clientDisconnected sender s = s.
Proof.
  intros Hunknown. unfold clientDisconnected.
  destruct (m_timer s); [done|].
  destruct sender as [a|]; [|done].
  by rewrite (proj2 (indexOf_None a (m_players s)) (Hunknown a eq_refl)).
Qed.

(** *** When a map load stops *)

Lemma kick_locals cap l :
  filter (fun p => negb (attached p)) (kick cap (length l) l)
  = filter (fun p => negb (attached p)) l.
Proof.
  destruct (kick_cut cap (length l) l) as (j & _ & ->); [done| |].
  { rewrite drop_all. constructor. }
  rewrite filter_app, list_filter_filter_l by done.
  by rewrite <- filter_app, take_drop.
Qed.

Lemma place_Crash starts : ∀ l i,
  (i ≤ length starts)%nat → (length starts < i + length l)%nat →
  place starts i l = Crash (IndexOutOfRange (length starts)).
Proof.
  induction l as [|p l IH]; intros i Hi Hover; simpl in *; [lia|].
  destruct (starts !! i) as [sp|] eqn:Hsp.
  - pose proof (lookup_lt_Some _ _ _ Hsp).
    rewrite (IH (S i)) by lia. done.
  - apply lookup_ge_None in Hsp. do 2 f_equal. lia.
Qed.

(** X12. A map load stops at a read past the end of the starting
    positions exactly when the map is valid and has fewer starting
    positions than the roster has players without a channel; the index
    read is then the number of starting positions.  In every other case
    the load completes. *)
Theorem loadMap_stops_iff path s :
  let map := Map_new path in
  let cap := length (startingPositions map) in
  let locals := length (filter (fun p => negb (attached p)) (m_players s)) in
  (isValid map = true ∧ (cap < locals)%nat →
     loadMap path s = Crash (IndexOutOfRange cap))
  ∧ (isValid map = false ∨ (locals ≤ cap)%nat → ∃ s', loadMap path s = Done s')
  ∧ (isValid map = false → loadMap path s = Done s).
Proof.
  intros map cap locals. unfold loadMap. fold map cap.
  split; [|split].
  - intros [-> Hover]. simpl.
    rewrite place_Crash; [done|lia|]. simpl.
    pose proof (kick_locals cap (m_players s)) as Hloc.
    pose proof (length_filter (fun p => negb (attached p))
                  (kick cap (length (m_players s)) (m_players s))) as Hle.
    rewrite Hloc in Hle. fold locals in Hle. fold cap. lia.
  - intros [->|Hfit]; [by eexists|].
    destruct (isValid map); simpl; [|by eexists].
    destruct (place_Done (startingPositions map)
                (kick cap (length (m_players s)) (m_players s)) O)
      as (placed & -> & _).
    + rewrite kick_length; [fold cap; lia|done|].
      rewrite firstn_all. pose proof (attached_or_not (m_players s)).
      fold locals in Hfit. lia.
    + by eexists.
  - by intros ->.
Qed.

(** *** Explosions *)

(** X13. An explosion kills exactly the alive players on its cell and
    changes nothing else of any player; it revives nobody.  Repeating it
    changes nothing more, and two explosions have the same effect in
    either order. *)
Theorem explosionAt_kills_on_cell pos pos' s :
  (∀ i p, m_players s !! i = Some p →
     ∃ p', m_players (explosionAt pos s) !! i = Some p'
       ∧ p' = setAlive (isAlive p && negb (QPoint_eqb (position p) pos)) p)
  ∧ explosionAt pos (explosionAt pos s) = explosionAt pos s
  ∧ explosionAt pos (explosionAt pos' s) = explosionAt pos' (explosionAt pos s).
Proof.
  split; [|split].
  - intros i p Hp. unfold explosionAt. simpl.
    change (map ?f ?l) with (f <$> l). rewrite list_lookup_fmap, Hp. simpl.
    eexists. split; [done|].
    destruct p as [a i0 n q al c w nc]. simpl.
    destruct (QPoint_eqb q pos); destruct al; done.
  - unfold explosionAt, with_players. simpl. f_equal.
    rewrite map_map. apply map_ext. intros p.
    destruct (QPoint_eqb (position p) pos) eqn:Hp; simpl; rewrite Hp; done.
  - unfold explosionAt, with_players. simpl. f_equal.
    rewrite !map_map. apply map_ext. intros p.
    destruct (QPoint_eqb (position p) pos) eqn:Hp;
      destruct (QPoint_eqb (position p) pos') eqn:Hp'; simpl; rewrite ?Hp, ?Hp'; done.
Qed.

End RosterChanges.

(** ** Starting a round *)

Section RoundStart.
Context {Map : Type} `{MapModel Map}.
Implicit Types (s : GameManager Map) (l : list Player).

Lemma revive_Done starts : ∀ l i,
  (i + length l ≤ length starts)%nat →
  ∃ l', revive starts i l = Done l'
    ∧ length l' = length l
    ∧ ∀ k p, l !! k = Some p →
        ∃ sp, starts !! (i + k)%nat = Some sp
          ∧ l' !! k = Some (setPosition sp (setAlive true p)).
Proof.
  induction l as [|p l IH]; intros i Hfit; simpl in *.
  - exists []. split; [done|]. split; [done|]. intros k q Hk. done.
  - destruct (lookup_lt_is_Some_2 starts i) as [sp Hsp]; [lia|]. rewrite Hsp.
    destruct (IH (S i)) as (l' & -> & Hlen & Hl'); [lia|].
    exists (setPosition sp (setAlive true p) :: l').
    split; [done|]. split; [simpl; lia|].
    intros [|k] q Hk; simpl in Hk.
    + injection Hk as <-. exists sp. rewrite Nat.add_0_r. done.
    + destruct (Hl' k q Hk) as (sq & Hsq & Hq).
      exists sq. rewrite <- Nat.add_succ_comm. done.
Qed.

Lemma attached_flags l l' :
  attached <$> l' = attached <$> l →
  Forall (fun p => attached p = true) l → Forall (fun p => attached p = true) l'.
Proof.
  intros Heq Hl.
  apply (Forall_fmap attached (fun b => b = true)).
  rewrite Heq. by apply Forall_fmap.
Qed.

Lemma no_local_filter l :
  Forall (fun p => attached p = true) l →
  filter (fun p => negb (attached p)) l = [].
Proof.
  induction 1 as [|p d Hp Hd IH]; [done|].
  rewrite filter_cons_False; [exact IH|]. rewrite Hp. simpl. tauto.
Qed.

Lemma kick_all_attached cap l :
  Forall (fun p => attached p = true) l →
  kick cap (length l) l = take (length l `min` cap) l.
Proof.
  intros Hnet.
  destruct (kick_cut cap (length l) l) as (j & Hj & Hkick); [done| |].
  { rewrite drop_all. constructor. }
  assert (filter (fun p => negb (attached p)) (drop j l) = []) as Hnone.
  { apply no_local_filter.
    rewrite Forall_forall in Hnet |- *. intros p Hp. apply Hnet.
    eapply elem_of_sublist; [exact Hp|apply sublist_drop]. }
  rewrite Hnone, app_nil_r in Hkick.
  assert (length (kick cap (length l) l) = (length l `min` cap)%nat) as Hlen.
  { apply kick_length; [done|]. rewrite firstn_all.
    pose proof (attached_or_not l) as Hsum.
    rewrite (no_local_filter l Hnet) in Hsum. simpl in Hsum. lia. }
  rewrite Hkick in Hlen |- *. rewrite length_take in Hlen.
  f_equal. lia.
Qed.

Lemma lock_names_attached l :
  Forall (fun p => attached p = true) l →
  lock_names l = Done (nameChanged_disconnect <$> (ptr <$> l)).
Proof.
  induction 1 as [|p l Hp Hl IH]; simpl; [done|].
  unfold attached in Hp. destruct (networkClient p); [|done].
  by rewrite IH.
Qed.

(** X14. [startRound] on an empty roster does nothing, and the timer is
    not started.  On a roster of network players that the current map has
    room for, with the map's file still valid, it completes: the map is
    loaded anew, the timer runs, the round counter is untouched, every
    player the new map has room for is alive, at the starting position of
    its index and numbered by its index, with all else as before, and the
    name of each of these players is locked. *)
Theorem startRound_network_roster s :
  let map' := Map_new (map_name (m_map s)) in
  let n := (length (m_players s) `min` length (startingPositions map'))%nat in
  (m_players s = [] → startRound s = Done (s, []))
  ∧ (m_players s ≠ [] →
     Forall (fun p => attached p = true) (m_players s) →
     has_room s →
     isValid map' = true →
     ∃ s', startRound s
           = Done (s', nameChanged_disconnect <$> take n (ptr <$> m_players s))
       ∧ m_timer s' = true ∧ m_map s' = map'
       ∧ m_roundsPlayed s' = m_roundsPlayed s
       ∧ length (m_players s') = n
       ∧ ∀ i p, (i < n)%nat → m_players s !! i = Some p →
           ∃ sp, startingPositions map' !! i = Some sp
             ∧ m_players s' !! i
               = Some (setId (Z.of_nat i) (setPosition sp (setAlive true p)))).
Proof.
  intros map' n. split.
  { intros Hempty. unfold startRound. by rewrite Hempty. }
  intros Hne Hnet Hroom Hvalid.
  assert (startRound s
          = (revived ← revive (startingPositions (m_map s)) 0 (m_players s);
             s1 ← loadMap (map_name (m_map s)) (with_players revived s);
             sigs ← lock_names (m_players s1);
             mret (with_timer true s1, sigs))) as ->.
  { unfold startRound. by destruct (m_players s). }
  destruct (revive_Done (startingPositions (m_map s)) (m_players s) O Hroom)
    as (revived & Hrevive & Hrlen & Hrev).
  rewrite Hrevive. simpl. unfold loadMap. simpl. fold map'. rewrite Hvalid. simpl.
  assert (Forall (fun p => attached p = true) revived) as Hrnet.
  { revert Hnet. apply attached_flags.
    by apply (revive_keeps attached _ _ _ _ ltac:(done) Hrevive). }
  rewrite (kick_all_attached _ revived Hrnet), Hrlen. fold n.
  destruct (place_Done (startingPositions map') (take n revived) O)
    as (placed & Hplace & Hplen & Hplaced).
  { rewrite length_take. unfold n. lia. }
  rewrite Hplace. simpl.
  assert (Forall (fun p => attached p = true) placed) as Hpnet.
  { assert (Forall (fun p => attached p = true) (take n revived)) as Htake.
    { rewrite Forall_forall in Hrnet |- *. intros q Hq. apply Hrnet.
      eapply elem_of_sublist; [exact Hq|apply sublist_take]. }
    revert Htake. apply attached_flags.
    by apply (place_keeps attached _ _ _ _ ltac:(done) Hplace). }
  rewrite (lock_names_attached placed Hpnet). simpl.
  assert (ptr <$> placed = take n (ptr <$> m_players s)) as ->.
  { rewrite (place_keeps ptr _ _ _ _ ltac:(done) Hplace), fmap_take.
    by rewrite (revive_keeps ptr _ _ _ _ ltac:(done) Hrevive). }
  eexists. split; [done|]. simpl.
  split; [done|]. split; [done|]. split; [done|].
  split. { rewrite Hplen, length_take. unfold n in *. lia. }
  intros i p Hi Hp.
  destruct (Hrev i p Hp) as (sp0 & _ & Hri).
  destruct (Hplaced i (setPosition sp0 (setAlive true p))) as (sp & Hsp & Hpi).
  { by rewrite lookup_take_lt. }
  exists sp. split; [done|]. by rewrite Hpi.
Qed.

End RoundStart.

(** ** Notices, bombs and reconnects *)

Section Notices.
Context {Map : Type} `{MapModel Map}.
Implicit Types (s : GameManager Map) (l : list Player).

Lemma endOfRound_notices_attached l :
  endOfRound_notices l
  = sendEndOfRound <$> (ptr <$> filter (fun p => attached p) l).
Proof.
  unfold endOfRound_notices. induction l as [|p l IH]; [done|].
  csimpl. rewrite filter_cons. destruct (attached p); simpl; by rewrite IH.
Qed.

(** X15. A round resolution, whether a tick or [stopGame] asks for it,
    stops the timer and sends one end-of-round notice to every player
    with a channel, dead or alive, in roster order, and none to a local
    player; the notices are followed by the request for the next round
    when the round counter was below 5 and by the end screen otherwise.
    [stopGame] in addition leaves the round counter at 0. *)
Theorem endRound_notifies_attached s :
  let notices := sendEndOfRound <$> (ptr <$> filter (fun p => attached p) (m_players s)) in
  let next := if m_roundsPlayed s <? 5 then singleShot_startRound else endScreen_opacity in
  (endRound s).2 = notices ++ [next]
  ∧ m_timer (endRound s).1 = false
  ∧ (stopGame s).2 = notices ++ [next]
  ∧ m_timer (stopGame s).1 = false
  ∧ m_roundsPlayed (stopGame s).1 = 0
  ∧ m_players (stopGame s).1 = m_players (endRound s).1.
Proof.
  intros notices next. unfold stopGame, endRound, notices, next. simpl.
  rewrite endOfRound_notices_attached.
  by destruct (m_roundsPlayed s <? 5).
Qed.

Lemma decode_other cmd pos :
  one_cell_target cmd pos = None →
  decode cmd pos = if decide (cmd = "BOMB") then PlaceBomb else NoAction.
Proof.
  unfold one_cell_target, decode.
  repeat case_decide; subst; simpl; try done.
  repeat match goal with
  | Hne : ?c ≠ ?k |- context [String.eqb ?c ?k] =>
      rewrite (proj2 (String.eqb_neq c k) Hne)
  end.
  done.
Qed.

(** X16. A player whose pending command is not one of the four directions
    does not move, and no other player does: with the command BOMB the
    map is asked for a bomb at the player's position, owned by that
    player; with an empty or unknown command nothing happens at all. *)
Theorem resolve_other_commands order k roster (map : Map) p :
  roster !! k = Some p →
  one_cell_target (command p) (position p) = None →
  resolve order k (roster, map)
  = (roster,
     if decide (command p = "BOMB") then addBomb map (position p) (ptr p) else map).
Proof.
  intros Hp Htarget. unfold resolve. rewrite Hp.
  destruct (String.eqb_spec (command p) "") as [Hempty|Hcmd].
  - rewrite Hempty. done.
  - rewrite (decode_other _ _ Htarget). by case_decide.
Qed.

Lemma indexOf_snoc l p :
  Forall (fun a => (a < ptr p)%nat) (ptr <$> l) →
  indexOf (ptr p) (l ++ [p]) = Some (length l).
Proof.
  induction l as [|q l IH]; intros Hlt; simpl.
  - by rewrite Nat.eqb_refl.
  - rewrite fmap_cons in Hlt. apply Forall_cons in Hlt as [Hq Hlt].
    destruct (Nat.eqb_spec (ptr q) (ptr p)); [lia|].
    by rewrite IH.
Qed.

(** X17. Between rounds, in a room with a free place, a connection
    followed by the disconnect of the player it created gives back the
    roster as it was: the newcomer is appended last, so its removal and
    the renumbering leave every other player untouched. *)
Theorem clientConnect_clientDisconnected c s :
  well_formed s →
  m_timer s = false →
  (length (m_players s) < length (startingPositions (m_map s)))%nat →
  ∃ s1, clientConnect c s = Done (s1, [])
    ∧ length (m_players s1) = S (length (m_players s))
    ∧ m_players (clientDisconnected (Some (next_ptr s)) s1) = m_players s.
Proof.
  intros (Hnd & Hlt & Hdense) Htimer Hroom. unfold clientConnect.
  destruct (Nat.leb_spec (length (startingPositions (m_map s))) (length (m_players s)));
    [lia|].
  rewrite Htimer. simpl.
  destruct (addPlayer_Done (Some c) s Hroom) as (sp & _ & ->). simpl.
  eexists. split; [done|]. simpl.
  split; [rewrite length_app; simpl; lia|].
  unfold clientDisconnected. simpl. rewrite Htimer.
  set (p := mkPlayer (next_ptr s) _ _ _ _ _ _ _).
  assert (indexOf (next_ptr s) (m_players s ++ [p]) = Some (length (m_players s)))
    as -> by exact (indexOf_snoc (m_players s) p Hlt).
  simpl.
  unfold takeAt. rewrite delete_take_drop.
  rewrite take_app_length, drop_ge by (rewrite length_app; simpl; lia).
  rewrite app_nil_r. by apply renumber_dense_id.
Qed.

End Notices.

(** ** More concrete rosters *)

(** In the crossing bob, resolved first, goes from (3,1) to (2,1). *)
Lemma gameTick_moves_one_cell_witness :
  m_players crossing_round !! 1%nat = Some (remote 1 bob (mkPoint 3 1) true "LEFT")
  ∧ ∃ p', m_players (gameTick rng0 crossing_round).1 !! 1%nat = Some p'
      ∧ one_step (mkPoint 3 1) (position p').
Proof.
  split; [reflexivity|].
  apply (gameTick_moves_one_cell rng0 crossing_round 1
           (remote 1 bob (mkPoint 3 1) true "LEFT")).
  reflexivity.
Defined.

(** Alice and bob head for the same cell and end the tick on two cells. *)
Lemma gameTick_keeps_alive_apart_witness :
  alive_apart (m_players crossing_round)
  ∧ alive_apart (m_players (gameTick rng0 crossing_round).1).
Proof.
  assert (alive_apart (m_players crossing_round)) as Hapart.
  { intros i j p q Hne Hi Hj _ _.
    destruct i as [|[|i]], j as [|[|j]]; vm_compute in Hi, Hj; try done;
      injection Hi as <-; injection Hj as <-; vm_compute; discriminate. }
  split; [exact Hapart|].
  exact (gameTick_keeps_alive_apart rng0 crossing_round Hapart).
Defined.

(** The running duel: bob is blown up, the next tick ends the round. *)
Lemma explosion_then_tick_ends_round_witness :
  remote 1 bob (mkPoint 3 3) true "" ∈ m_players duel_running
  ∧ alive_players (m_players duel_running) ≤ 2
  ∧ gameOver ∈ (gameTick rng0 (explosionAt (mkPoint 3 3) duel_running)).2.
Proof.
  assert (remote 1 bob (mkPoint 3 3) true "" ∈ m_players duel_running) as Hin
    by (right; left).
  assert (alive_players (m_players duel_running) ≤ 2) as Hfew by (vm_compute; discriminate).
  split; [exact Hin|]. split; [exact Hfew|].
  exact (proj1 (explosion_then_tick_ends_round rng0 duel_running
                  (remote 1 bob (mkPoint 3 3) true "") Hin eq_refl Hfew)).
Defined.

(** A game with the local user, commands, a bomb and a tick: the roster
    stays dense; and the full room, local user included, is dense where
    [startRound] reaches its name-lock loop. *)
Lemma slots_keep_roster_dense_witness :
  (∃ s sigs,
     run [EvAddPlayer None; EvClientConnect alice; EvUserMove "RIGHT";
          EvCommand 1 "BOMB"; EvRemoveHumanPlayers; EvClientConnect bob;
          EvStartRound; EvGameTick rng0] (initial default_map) = Done (s, sigs)
     ∧ command <$> m_players s = ["BOMB"; ""]
     ∧ NoDup (ptr <$> m_players s))
  ∧ ∃ s1, startRound_setup full_room = Done s1 ∧ well_formed (with_timer true s1).
Proof.
  destruct (slots_keep_roster_dense default_map) as (_ & _ & Hsetup & Hrun).
  split.
  - destruct (run _ (initial default_map)) as [[s sigs]|f] eqn:Hr.
    + exists s, sigs. split; [reflexivity|]. split.
      * vm_compute in Hr. injection Hr as <- _. reflexivity.
      * exact (proj1 (Hrun _ s sigs Hr)).
    + vm_compute in Hr. discriminate Hr.
  - destruct (startRound_setup full_room) as [s1|f] eqn:Hs.
    + exists s1. split; [reflexivity|].
      refine (Hsetup full_room s1 true _ Hs).
      split; [compute_done|]. split; [repeat constructor|reflexivity].
    + vm_compute in Hs. discriminate Hs.
Defined.

(** After five rounds of the duel the counter is at 5, within its range. *)
Lemma slots_keep_round_counter_witness :
  ∃ s sigs, run five_rounds (initial default_map) = Done (s, sigs)
    ∧ 0 ≤ m_roundsPlayed s ≤ 5.
Proof.
  destruct (slots_keep_round_counter default_map) as (_ & _ & _ & Hrun).
  destruct (run five_rounds (initial default_map)) as [[s sigs]|f] eqn:Hr.
  - exists s, sigs. split; [reflexivity|]. exact (Hrun _ s sigs Hr).
  - vm_compute in Hr. discriminate Hr.
Defined.

(** Alice plants a bomb in the first tick of a duel: the map holds the
    bomb and still has room for both players. *)
Lemma slots_keep_room_witness :
  ∃ s sigs,
    run [EvClientConnect alice; EvClientConnect bob; EvCommand 0 "BOMB";
         EvStartRound; EvGameTick rng0] (initial default_map) = Done (s, sigs)
    ∧ bombs (m_map s) = [mkPoint 1 1]
    ∧ has_room s.
Proof.
  destruct (slots_keep_room default_map) as (_ & _ & _ & Hrun); [reflexivity|].
  destruct (run _ (initial default_map)) as [[s sigs]|f] eqn:Hr.
  - exists s, sigs. split; [reflexivity|]. split.
    + vm_compute in Hr. injection Hr as <- _. reflexivity.
    + exact (Hrun _ s sigs Hr).
  - vm_compute in Hr. discriminate Hr.
Defined.

(** The local user joins the idle duel and is removed again. *)
Lemma addPlayer_removeHumanPlayers_witness :
  ∃ s', addPlayer None duel_idle = Done s'
    ∧ m_players (removeHumanPlayers s') = m_players duel_idle.
Proof.
  destruct (addPlayer None duel_idle) as [s'|f] eqn:Hadd.
  - exists s'. split; [reflexivity|].
    refine (addPlayer_removeHumanPlayers duel_idle s' _ _ Hadd).
    + reflexivity.
    + repeat constructor.
  - vm_compute in Hadd. discriminate Hadd.
Defined.

(** A disconnect from an address that the idle duel does not hold. *)
Lemma clientDisconnected_unknown_sender_witness :
  clientDisconnected (Some 7%nat) duel_idle = duel_idle.
Proof.
  apply clientDisconnected_unknown_sender.
  intros a [= <-]. compute_done.
Defined.

(** Two local users: the solo map stops the load, the duel map does not. *)
Lemma loadMap_stops_iff_witness :
  loadMap "maps/solo.map" two_locals = Crash (IndexOutOfRange 1)
  ∧ ∃ s', loadMap "maps/duel.map" two_locals = Done s'.
Proof.
  split.
  - rewrite (proj1 (loadMap_stops_iff "maps/solo.map" two_locals)); [reflexivity|].
    split; [reflexivity|]. vm_compute. lia.
  - apply (proj1 (proj2 (loadMap_stops_iff "maps/duel.map" two_locals))).
    right. vm_compute. lia.
Defined.

(** The idle duel starts its next round: bob is alive again. *)
Lemma startRound_network_roster_witness :
  ∃ s', startRound duel_idle
        = Done (s', [nameChanged_disconnect 0; nameChanged_disconnect 1])
    ∧ m_timer s' = true.
Proof.
  destruct (proj2 (startRound_network_roster duel_idle))
    as (s' & Hstart & Htimer & _).
  - discriminate.
  - repeat constructor.
  - unfold has_room. vm_compute. lia.
  - reflexivity.
  - exists s'. split; [exact Hstart|exact Htimer].
Defined.

(** Alice's bomb command: a bomb at (1,1), nobody moves. *)
Lemma resolve_other_commands_witness :
  resolve [1; 0]%nat 0 bomber
  = (bomber.1, addBomb default_map (mkPoint 1 1) 0).
Proof.
  exact (resolve_other_commands [1; 0]%nat 0 bomber.1 default_map
           (remote 0 alice (mkPoint 1 1) true "BOMB") eq_refl eq_refl).
Defined.

(** Carol connects to the idle duel and disconnects again. *)
Lemma clientConnect_clientDisconnected_witness :
  ∃ s1, clientConnect carol duel_idle = Done (s1, [])
    ∧ length (m_players s1) = 3%nat
    ∧ m_players (clientDisconnected (Some 2%nat) s1) = m_players duel_idle.
Proof.
  apply (clientConnect_clientDisconnected carol duel_idle).
  - split; [compute_done|]. split; [|reflexivity].
    repeat constructor.
  - reflexivity.
  - vm_compute. lia.
Defined.

(** C4, the claim as stated fails.  Bob disconnects while the duel runs;
    the next tick, which does not end the round, still sends bob a
    snapshot. *)
Lemma snapshot_sent_after_disconnect :
  ∃ s sigs,
    run (duel_setup ++ [EvStartRound; EvClientDisconnected (Some 1%nat)])
      (initial default_map) = Done (s, sigs)
    ∧ m_timer s = true
    ∧ (gameTick rng0 s).2 = [sendState 0 [1%nat]; sendState 1 [0%nat]].
Proof.
  eexists _, _. split; [by vm_compute|]. split; [done|]. by vm_compute.
Qed.

(** C9, the claim as stated fails.  Two local users and a valid map with
    one starting position: the eviction loop finds no network player, the
    roster still holds two players, and the position of the second is
    read past the end of the starting positions. *)
Lemma local_players_outnumber_map :
  isValid (Map_new "maps/solo.map" : Arena) = true
  ∧ length (startingPositions (Map_new "maps/solo.map" : Arena)) = 1%nat
  ∧ kick 1 2 (m_players two_locals) = m_players two_locals
  ∧ loadMap "maps/solo.map" two_locals = Crash (IndexOutOfRange 1).
Proof. repeat split; by vm_compute. Qed.
